(** * bluetooth-temp-logger: the SensorBug advertisement decoder and the
      per-device update store of [main.go]

    The development embeds the methods [onDiscovery] and [serve] of [state]
    in [main.go] as executable Rocq functions and proves properties of them.

    - A Go [[]byte] is a [list byte]; a Go [byte] used in arithmetic is the
      [Z] in [0, 256) it denotes, with [Z.land] and [Z.shiftr] for [&], [>>].
    - Go indexes and slices are bounds checked: an index or a slice
      expression out of range raises a run-time panic.  Nothing in
      [main.go] recovers from a panic, so a panic unwinds [onDiscovery],
      [serve] and [main].  The monad [M] below threads the world and stops
      at the first panic.
    - [s.updates] is a [map[string]*update]; every pointer in it is created
      by [onDiscovery] and stored under one key only, so the map with the
      pointed-to records is a [gmap string update].
    - The observable effects (lines written through [log], values set on
      the two Prometheus gauge vectors) are recorded, in order, in a trace. *)

From Stdlib Require Import ZArith QArith Strings.Byte.
From stdpp Require Import gmap strings list fin_maps pretty.

Local Open Scope string_scope.
Local Open Scope list_scope.
Local Open Scope Z_scope.

(** ** Data model *)

(** [type update struct { message string; changed bool }] *)
Record update := Update { message : string; changed : bool }.

(** The two gauge vectors declared at the top of [main.go]. *)
Inductive gauge := battery | airTemp.

(** What the program lets the outside see.  A gauge value is a [float64]
    in the source; every value the program sets is a byte, or a 16-bit
    integer times [0.0625 = 2^-4], both exactly representable in binary64,
    so the value is kept as the rational it is. *)
Inductive effect :=
| LogNew (id res : string)
| LogUpdate (id msg : string)
| LogExit
| GaugeSet (g : gauge) (unit : string) (v : Q).

(** The text of the line a log effect writes ([log.SetFlags(0)]: no prefix). *)
Definition line (e : effect) : option string :=
  match e with
  | LogNew id res => Some (id +:+ ": new: " +:+ res)
  | LogUpdate id msg => Some (id +:+ ": " +:+ msg)
  | LogExit => Some "Exit on interrupt"
  | GaugeSet _ _ _ => None
  end.

Definition is_log (e : effect) : bool :=
  match e with GaugeSet _ _ _ => false | _ => true end.

(** The part of the world [onDiscovery] and [serve] act on: [s.updates] and
    the effects performed so far. *)
Record world := World { updates : gmap string update; trace : list effect }.

(** ** Control: panics and a loop budget *)

Inductive result (A : Type) :=
| Returns (a : A) (w : world)
| Panics (w : world)
| OutOfFuel.
Arguments Returns {A} a w.
Arguments Panics {A} w.
Arguments OutOfFuel {A}.

Definition M (A : Type) : Type := world → result A.

Definition panic {A} : M A := λ w, Panics w.
Definition out_of_fuel {A} : M A := λ _, OutOfFuel.

#[export] Instance M_ret : MRet M := λ A a w, Returns a w.
#[export] Instance M_bind : MBind M := λ A B f m w,
  match m w with
  | Returns a w' => f a w'
  | Panics w' => Panics w'
  | OutOfFuel => OutOfFuel
  end.

Definition emit (e : effect) : M unit :=
  λ w, Returns tt (World (updates w) (trace w ++ [e])).

Definition get_update (id : string) : M (option update) :=
  λ w, Returns (updates w !! id) w.

Definition set_update (id : string) (u : update) : M unit :=
  λ w, Returns tt (World (<[id := u]> (updates w)) (trace w)).

Fixpoint for_each {A} (body : A → M unit) (l : list A) : M unit :=
  match l with
  | [] => mret tt
  | x :: l => body x;; for_each body l
  end.

(** ** Go primitives on byte slices *)

Definition byte_val (b : byte) : Z := Z.of_N (Byte.to_N b).

(** [b[i]] *)
Definition index (b : list byte) (i : nat) : M Z :=
  match b !! i with
  | Some x => mret (byte_val x)
  | None => panic
  end.

(** [b[lo:]] *)
Definition slice_from (b : list byte) (lo : nat) : M (list byte) :=
  if (lo <=? length b)%nat then mret (drop lo b) else panic.

(** [binary.LittleEndian.Uint16(b)]: [_ = b[1]; uint16(b[0]) | uint16(b[1])<<8] *)
Definition Uint16 (b : list byte) : M Z :=
  _ ← index b 1;
  b0 ← index b 0;
  b1 ← index b 1;
  mret (Z.lor b0 (Z.shiftl b1 8)).

(** The conversion [int16(u)] of a [uint16]. *)
Definition int16 (u : Z) : Z := (u + 32768) mod 65536 - 32768.

#[export] Instance byte_eq_decision : EqDecision byte := Byte.byte_eq_dec.

(** [bytes.Equal] *)
Definition bytes_Equal (a b : list byte) : bool :=
  bool_decide (a = b).

(** ** Formatting verbs *)

(** [%v] of a [bool] *)
Definition fmt_v (b : bool) : string := if b then "true" else "false".

(** [%d] *)
Definition fmt_d (n : Z) : string := pretty n.

(** Nearest integer to [n / d], ties to even, for [0 ≤ n] and [0 < d]. *)
Definition round_half_even (n d : Z) : Z :=
  let q := n / d in
  let r := n mod d in
  if 2 * r <? d then q
  else if d <? 2 * r then q + 1
  else if Z.even q then q else q + 1.

(** [%.01f]: Go rounds the exact decimal expansion of the value to one
    digit after the point, ties to even, and writes a minus sign when the
    sign bit is set.  The values formatted here are [0.0625 * v] for an
    [int16] [v]: the product is exact, and its sign bit is set exactly when
    [v < 0]. *)
Definition fmt_f1 (x : Q) : string :=
  let t := round_half_even (Z.abs (Qnum x) * 10) (Z.pos (Qden x)) in
  (if Qnum x <? 0 then "-" else "") +:+ fmt_d (t / 10) +:+ "." +:+ fmt_d (t mod 10).

(** ** [onDiscovery], lines 129-207 *)

Definition magic : list byte := [x85; x00; x02; x00; x3c].

(** The three fields of a control byte, lines 146-148, and the length code
    of a light descriptor, line 169. *)
Definition dataType (c : Z) : Z := Z.land c 0x3f.
Definition hasData (c : Z) : bool := negb (Z.land c 0x40 =? 0).
Definition hasAlert (c : Z) : bool := negb (Z.land c 0x80 =? 0).
Definition dataLen (d : Z) : Z := Z.land d 0x03.

(** One iteration of the loop of lines 145-194, entered with
    [len(rest) > 0]: the new [rest] and the summary built so far. *)
Definition record (id : string) (rest : list byte) (str : string)
  : M (list byte * string) :=
  c ← index rest 0;
  let dataType := dataType c in
  let hasData := hasData c in
  let hasAlert := hasAlert c in
  rest ← slice_from rest 1;
  rest ← (if hasAlert then slice_from rest 1 else mret rest);
  if negb hasData then mret (rest, str)
  else if dataType =? 0x01 then
    rest ← slice_from rest 2;
    mret (rest, str)
  else if dataType =? 0x02 then
    d ← index rest 0;
    let isIR := negb (Z.land d 0x80 =? 0) in
    d ← index rest 0;
    let dataResolution := Z.shiftr (Z.land d 0x30) 4 in
    d ← index rest 0;
    let dataRange := Z.shiftr (Z.land d 0x0c) 2 in
    d ← index rest 0;
    let dataLen := dataLen d in
    data ← (if dataLen =? 2 then r1 ← slice_from rest 1; Uint16 r1
            else index rest 1);
    let str := str +:+ " light:" +:+ fmt_v isIR +:+ "/" +:+ fmt_d dataResolution
                   +:+ "/" +:+ fmt_d dataRange +:+ "/" +:+ fmt_d data in
    rest ← slice_from rest (1 + Z.to_nat dataLen);
    mret (rest, str)
  else if dataType =? 0x03 then
    u ← Uint16 rest;
    let temp := (0.0625 * inject_Z (int16 u))%Q in
    let str := str +:+ " temp:" +:+ fmt_f1 temp +:+ "°C" in
    emit (GaugeSet airTemp id temp);;
    rest ← slice_from rest 2;
    mret (rest, str)
  else if dataType =? 0x2f then
    rest ← slice_from rest 1;
    mret (rest, str)
  else if dataType =? 0x3f then
    mret ([], str)
  else
    mret (rest, str).

(** The loop [for len(rest) > 0 { ... }] of lines 145-194.  [fuel] bounds
    the number of iterations. *)
Fixpoint records (fuel : nat) (id : string) (rest : list byte) (str : string)
  : M string :=
  match rest with
  | [] => mret str
  | _ :: _ =>
      match fuel with
      | O => out_of_fuel
      | S fuel =>
          '(rest, str) ← record id rest str;
          records fuel id rest str
      end
  end.

(** Lines 196-206: the summary [res] meets the entry of the device. *)
Definition applySummary (id res : string) : M unit :=
  cur ← get_update id;
  cur ← match cur with
        | Some cur => mret cur
        | None =>
            set_update id (Update "" false);;
            emit (LogNew id res);;
            mret (Update "" false)
        end;
  if bool_decide (message cur ≠ res)
  then set_update id (Update res true)
  else mret tt.

(** Lines 130-194: [None] when the advertisement is not a SensorBug's,
    otherwise the summary [str.String()]. *)
Definition decode (id : string) (ManufacturerData : list byte)
  : M (option string) :=
  if (length ManufacturerData <? 7)%nat then mret None
  else if negb (bytes_Equal (take 5 ManufacturerData) magic) then mret None
  else
    batt ← index ManufacturerData 5;
    emit (GaugeSet battery id (inject_Z batt));;
    let str := "batt:" +:+ fmt_d batt +:+ "%" in
    rest ← slice_from ManufacturerData 7;
    res ← records (length rest) id rest str;
    mret (Some res).

Definition onDiscovery (id : string) (ManufacturerData : list byte) (rssi : Z)
  : M unit :=
  res ← decode id ManufacturerData;
  match res with
  | None => mret tt
  | Some res => applySummary id res
  end.

(** ** [serve], lines 104-127 *)

(** The ticker case, lines 116-121.  Go leaves the order of a [range] over
    a map unspecified; the model visits the entries in the order of
    [map_to_list]. *)
Definition drain_entry (kv : string * update) : M unit :=
  if changed kv.2 then
    emit (LogUpdate kv.1 (message kv.2));;
    set_update kv.1 (Update (message kv.2) false)
  else mret tt.

Definition drainChanged : M unit :=
  λ w, for_each drain_entry (map_to_list (updates w)) w.

(** What one [select] of the loop can receive. *)
Inductive event :=
| Disco (id : string) (ManufacturerData : list byte) (rssi : Z)
| Tick
| Sig.

(** The loop of [serve] fed with the events [evs]: [true] when it returned
    on a signal, [false] when it is waiting for a further event. *)
Fixpoint serve (evs : list event) : M bool :=
  match evs with
  | [] => mret false
  | Disco id data rssi :: evs => onDiscovery id data rssi;; serve evs
  | Tick :: evs => drainChanged;; serve evs
  | Sig :: _ => emit LogExit;; mret true
  end.

Definition newState : world := World ∅ [].


(** * Vocabulary of the properties *)

Definition extends (str str' : string) : Prop := ∃ s, str' = str +:+ s.

Definition is_temp_gauge (id : string) (e : effect) : Prop :=
  ∃ t, e = GaugeSet airTemp id t.

(** [w'] is [w] after some values were set on the temperature gauge of
    [id], and nothing else. *)
Definition temp_gauges (id : string) (w w' : world) : Prop :=
  updates w' = updates w ∧
  ∃ gs, trace w' = trace w ++ gs ∧ Forall (is_temp_gauge id) gs.

Definition summary0 (b : byte) : string := "batt:" +:+ fmt_d (byte_val b) +:+ "%".

Definition battery_set (id : string) (b : byte) (w : world) : world :=
  World (updates w) (trace w ++ [GaugeSet battery id (inject_Z (byte_val b))]).

(** The entry with its flag cleared, line 119. *)
Definition cleared (u : update) : update := Update (message u) false.

(** The lines one pass over the entries [l] writes. *)
Definition drained (l : list (string * update)) : list effect :=
  (λ kv, LogUpdate kv.1 (message kv.2)) <$> filter (λ kv, changed kv.2 = true) l.

(** The map after one pass over the entries [l]. *)
Definition clear_in (l : list (string * update)) (m : gmap string update)
  : gmap string update :=
  foldl (λ m kv, if changed kv.2 then <[kv.1 := cleared kv.2]> m else m) m l.

(** The device an effect is about. *)
Definition subject (e : effect) : option string :=
  match e with
  | LogNew id _ | LogUpdate id _ | GaugeSet _ id _ => Some id
  | LogExit => None
  end.

(** [reaches id rest str w rest' str' w']: started on [rest] with summary
    [str] in world [w], the loop gets, after some iterations, to test its
    condition on [rest'] with summary [str'] in world [w']. *)
Inductive reaches (id : string)
  : list byte → string → world → list byte → string → world → Prop :=
| reaches_here rest str w : reaches id rest str w rest str w
| reaches_step c tl str w rest1 str1 w1 rest2 str2 w2 :
    record id (c :: tl) str w = Returns (rest1, str1) w1 →
    reaches id rest1 str1 w1 rest2 str2 w2 →
    reaches id (c :: tl) str w rest2 str2 w2.

(** The number of bytes, control byte included, one iteration started on
    [rest] indexes or slices over: the control byte, the alert byte when
    has-alert is set, and for a record with has-data set what the arm of
    its data-type touches.  The light arm touches the descriptor, then two
    value bytes for length code 2, and otherwise [rest[1]] and the
    [1 + dataLen] bytes it slices off. *)
Definition record_need (rest : list byte) : nat :=
  match rest with
  | [] => 0
  | c :: tl =>
      let c := byte_val c in
      let alert := if hasAlert c then 1%nat else 0%nat in
      let payload :=
        if negb (hasData c) then 0%nat
        else if dataType c =? 0x01 then 2%nat
        else if dataType c =? 0x02 then
          match tl !! alert with
          | None => 1%nat
          | Some d =>
              if dataLen (byte_val d) =? 2 then 3%nat
              else Nat.max 2 (1 + Z.to_nat (dataLen (byte_val d)))
          end
        else if dataType c =? 0x03 then 2%nat
        else if dataType c =? 0x2f then 1%nat
        else 0%nat in
      (1 + alert + payload)%nat
  end.

(** A record is truncated when the bytes left are fewer than it needs. *)
Definition truncated (rest : list byte) : Prop :=
  rest ≠ [] ∧ (length rest < record_need rest)%nat.

(** The bytes a record declares, in the words of the specification: the
    control byte, one alert byte when has-alert is set, and with has-data
    set two bytes for motion and for temperature, one for a pairing
    notice, and for light the descriptor with two value bytes for length
    code 2 and one otherwise. *)
Definition declared_need (rest : list byte) : nat :=
  match rest with
  | [] => 0
  | c :: tl =>
      let c := byte_val c in
      let alert := if hasAlert c then 1%nat else 0%nat in
      let payload :=
        if negb (hasData c) then 0%nat
        else if dataType c =? 0x01 then 2%nat
        else if dataType c =? 0x02 then
          match tl !! alert with
          | None => 1%nat
          | Some d => if dataLen (byte_val d) =? 2 then 3%nat else 2%nat
          end
        else if dataType c =? 0x03 then 2%nat
        else if dataType c =? 0x2f then 1%nat
        else 0%nat in
      (1 + alert + payload)%nat
  end.

(** The payload [85 00 02 00 3c 32 00]: battery [0x32 = 50], no record. *)
Definition header50 : list byte := [x85; x00; x02; x00; x3c; x32; x00].

(** The data-types the switch of lines 158-193 has a case for. *)
Definition known_type (t : Z) : bool :=
  bool_decide (t ∈ [0x01; 0x02; 0x03; 0x2f; 0x3f]).

(** What the light arm appends to the summary, line 176, for the
    descriptor byte [d] and the value [data]. *)
Definition light_summary (d data : Z) : string :=
  " light:" +:+ fmt_v (negb (Z.land d 0x80 =? 0)) +:+ "/" +:+
  fmt_d (Z.shiftr (Z.land d 0x30) 4) +:+ "/" +:+
  fmt_d (Z.shiftr (Z.land d 0x0c) 2) +:+ "/" +:+ fmt_d data.

(** The outcome [r] of a computation run in the empty world, seen from the
    world [w]: the same value or panic, the store of [w], and the effects
    of the run after those of [w]. *)
Definition rebase {A} (w : world) (r : result A) : result A :=
  match r with
  | Returns a w' => Returns a (World (updates w) (trace w ++ trace w'))
  | Panics w' => Panics (World (updates w) (trace w ++ trace w'))
  | OutOfFuel => OutOfFuel
  end.

(** A computation that neither reads the world nor touches the store. *)
Definition framed {A} (m : M A) : Prop := ∀ w, m w = rebase w (m newState).

(** The world a computation ends in, by a return or by a panic. *)
Definition final {A} (r : result A) : option world :=
  match r with
  | Returns _ w | Panics w => Some w
  | OutOfFuel => None
  end.

(** The devices announced by a [new:] line, in the order of the lines. *)
Definition new_ids (t : list effect) : list string :=
  omap (λ e, match e with LogNew id _ => Some id | _ => None end) t.

(** Every stored message starts with the battery field. *)
Definition battery_first (m : gmap string update) : Prop :=
  ∀ id u, m !! id = Some u → ∃ b, extends (summary0 b) (message u).

(** The devices announced as new are those of the store, each once. *)
Definition announced (w : world) : Prop :=
  NoDup (new_ids (trace w)) ∧
  ∀ id, id ∈ new_ids (trace w) ↔ is_Some (updates w !! id).

(** [w'] is [w] after a decode of [data] went past a valid header: the
    store is the same, no line was logged, and the trace grew by the
    battery gauge of the device, set to byte 5, followed by values of its
    temperature gauge. *)
Definition gauges_only (id : string) (data : list byte) (w w' : world) : Prop :=
  take 5 data = magic ∧
  updates w' = updates w ∧
  filter (λ e, is_log e = true) (trace w') =
    filter (λ e, is_log e = true) (trace w) ∧
  ∃ b gs, data !! 5%nat = Some b ∧
    trace w' = trace w ++ GaugeSet battery id (inject_Z (byte_val b)) :: gs ∧
    Forall (is_temp_gauge id) gs.

(** The events on which [serve] returns. *)
Definition is_sig (e : event) : bool :=
  match e with Sig => true | _ => false end.

(** The value an iteration started on [rest] sets on the temperature
    gauge, line 183: one value when [rest] starts with a temperature record
    (data-type [0x03], has-data set) that has its two value bytes [lo],
    [hi] after the control byte and the alert byte if any; none for any
    other record. *)
Definition record_gauge (id : string) (rest : list byte) : list effect :=
  match rest with
  | [] => []
  | c :: tl =>
      if hasData (byte_val c) && (dataType (byte_val c) =? 0x03) then
        match (if hasAlert (byte_val c) then drop 1 tl else tl) with
        | lo :: hi :: _ =>
            [GaugeSet airTemp id
               (0.0625 * inject_Z (int16 (byte_val lo + 256 * byte_val hi)))%Q]
        | _ => []
        end
      else []
  end.

(** [reaches_via id path rest str w rest' str' w']: as [reaches], with
    [path] the records decoded on the way, each given by the bytes left
    when its iteration started, in the order of decoding. *)
Inductive reaches_via (id : string)
  : list (list byte) → list byte → string → world →
    list byte → string → world → Prop :=
| via_here rest str w : reaches_via id [] rest str w rest str w
| via_step c tl str w rest1 str1 w1 path rest2 str2 w2 :
    record id (c :: tl) str w = Returns (rest1, str1) w1 →
    reaches_via id path rest1 str1 w1 rest2 str2 w2 →
    reaches_via id ((c :: tl) :: path) (c :: tl) str w rest2 str2 w2.

(** * Properties *)

(** ** Running the monad *)

Section Running.
Context {A B : Type}.

Lemma M_bind_ret (a : A) (f : A → M B) : mret a ≫= f = f a.
Proof. reflexivity. Qed.

Lemma M_bind_panic (f : A → M B) : panic ≫= f = panic.
Proof. reflexivity. Qed.

Lemma M_bind_Returns (m : M A) (f : A → M B) w a w' :
  m w = Returns a w' → (m ≫= f) w = f a w'.
Proof. unfold mbind, M_bind. by intros ->. Qed.

Lemma M_bind_Panics (m : M A) (f : A → M B) w w' :
  m w = Panics w' → (m ≫= f) w = Panics w'.
Proof. unfold mbind, M_bind. by intros ->. Qed.

Lemma M_bind_OutOfFuel (m : M A) (f : A → M B) w :
  (m ≫= f) w = OutOfFuel →
  m w = OutOfFuel ∨ ∃ a w', m w = Returns a w' ∧ f a w' = OutOfFuel.
Proof. unfold mbind, M_bind. destruct (m w); eauto; done. Qed.
End Running.

Lemma index_here x b : index (x :: b) 0 = mret (byte_val x).
Proof. reflexivity. Qed.

Lemma index_next x b i : index (x :: b) (S i) = index b i.
Proof. reflexivity. Qed.

Lemma index_nil i : index [] i = panic.
Proof. by destruct i. Qed.

Lemma slice_from_0 b : slice_from b 0 = mret b.
Proof. reflexivity. Qed.

Lemma slice_from_cons x b lo : slice_from (x :: b) (S lo) = slice_from b lo.
Proof. reflexivity. Qed.

Lemma slice_from_nil lo : slice_from [] (S lo) = panic.
Proof. reflexivity. Qed.

Lemma slice_from_cases b lo w :
  (lo ≤ length b)%nat ∧ slice_from b lo w = Returns (drop lo b) w ∨
  (length b < lo)%nat ∧ slice_from b lo w = Panics w.
Proof.
  unfold slice_from. destruct (Nat.leb_spec lo (length b)); [left | right]; done.
Qed.

Lemma Uint16_two a b tl :
  Uint16 (a :: b :: tl) = mret (Z.lor (byte_val a) (Z.shiftl (byte_val b) 8)).
Proof. reflexivity. Qed.

Lemma Uint16_one a : Uint16 [a] = panic.
Proof. reflexivity. Qed.

Lemma Uint16_nil : Uint16 [] = panic.
Proof. reflexivity. Qed.

Ltac M_simp :=
  repeat (progress
    (rewrite ?M_bind_ret, ?M_bind_panic, ?index_here, ?index_next, ?index_nil,
       ?slice_from_0, ?slice_from_cons, ?slice_from_nil,
       ?Uint16_two, ?Uint16_one, ?Uint16_nil;
     cbv beta; cbn [negb Nat.add])).

(** ** Summaries only grow *)

Lemma append_empty_r s : s +:+ "" = s.
Proof.
  induction s as [|a s IH]; [done|].
  change (String a (s +:+ "") = String a s). by rewrite IH.
Qed.

Lemma append_assoc s t u : (s +:+ t) +:+ u = s +:+ t +:+ u.
Proof.
  induction s as [|a s IH]; [done|].
  change (String a ((s +:+ t) +:+ u) = String a (s +:+ t +:+ u)). by rewrite IH.
Qed.

Lemma extends_refl str : extends str str.
Proof. exists "". by rewrite append_empty_r. Qed.

Lemma extends_append str s : extends str (str +:+ s).
Proof. by exists s. Qed.

Lemma extends_trans s1 s2 s3 : extends s1 s2 → extends s2 s3 → extends s1 s3.
Proof. intros [a ->] [b ->]. exists (a +:+ b). apply append_assoc. Qed.

Lemma extends_nonempty str str' : str ≠ "" → extends str str' → str' ≠ "".
Proof. intros Hne [s ->]. destruct str; [done|]. discriminate. Qed.

(** ** What decoding does to the world *)

Lemma temp_gauges_refl id w : temp_gauges id w w.
Proof. split; [done|]. exists []. by rewrite app_nil_r. Qed.

Lemma temp_gauges_trans id w1 w2 w3 :
  temp_gauges id w1 w2 → temp_gauges id w2 w3 → temp_gauges id w1 w3.
Proof.
  intros [Hu1 (gs1 & Ht1 & Hg1)] [Hu2 (gs2 & Ht2 & Hg2)].
  split; [congruence|].
  exists (gs1 ++ gs2). split.
  - by rewrite Ht2, Ht1, app_assoc.
  - by apply Forall_app.
Qed.

Lemma temp_gauges_emit id w t :
  temp_gauges id w (World (updates w) (trace w ++ [GaugeSet airTemp id t])).
Proof.
  split; [done|]. eexists; split; [done|].
  constructor; [by exists t | constructor].
Qed.

Lemma temp_gauges_no_log id w w' :
  temp_gauges id w w' →
  filter (λ e, is_log e = true) (trace w') = filter (λ e, is_log e = true) (trace w).
Proof.
  intros [_ (gs & -> & Hgs)]. rewrite filter_app.
  assert (filter (λ e, is_log e = true) gs = []) as ->; [|by rewrite app_nil_r].
  induction Hgs as [|e gs [t ->] _ IH]; [done|].
  by rewrite filter_cons_False.
Qed.

(** ** One iteration of the record loop *)

Ltac split_step :=
  match goal with
  | |- context [hasAlert ?c] => destruct (hasAlert c) eqn:?
  | |- context [hasData ?c] => destruct (hasData c) eqn:?
  | |- context [if (?a =? ?b)%Z then _ else _] => destruct (Z.eqb_spec a b)
  | |- context [slice_from ?l (S _)] => is_var l; destruct l
  | |- context [index ?l _] => is_var l; destruct l
  | |- context [Uint16 ?l] => is_var l; destruct l
  | |- context [Uint16 (_ :: ?l)] => is_var l; destruct l
  end.

Ltac split_slice :=
  repeat match goal with
  | |- context [slice_from ?b ?n ?w] =>
      destruct (slice_from_cases b n w) as [[? ->] | [? ->]]
  end.

Ltac solve_suffix :=
  first [ apply suffix_nil | reflexivity | apply suffix_drop
        | apply suffix_cons_r; solve_suffix ].

Ltac record_cases := unfold record; repeat (M_simp; try split_step).

Ltac M_run :=
  cbv [mret M_ret panic emit mbind M_bind]; cbv beta iota;
  split_slice; cbv beta iota.

(** An iteration never exhausts the budget; when it returns, the new
    [rest] is a suffix of what followed the control byte, the summary has
    grown, and at most the temperature gauge was set; when it panics, it
    does so before any effect. *)
Lemma record_spec id c tl str w :
  match record id (c :: tl) str w with
  | Returns (rest', str') w' =>
      rest' `suffix_of` tl ∧ extends str str' ∧ temp_gauges id w w'
  | Panics w' => w' = w
  | OutOfFuel => False
  end.
Proof.
  record_cases; M_run; try done.
  all: split_and?; try apply extends_refl; try apply extends_append;
    try apply temp_gauges_refl; try apply temp_gauges_emit.
  all: solve_suffix.
Qed.

(** ** The record loop *)

Lemma records_cons fuel id c tl str :
  records (S fuel) id (c :: tl) str =
  '(rest, str) ← record id (c :: tl) str; records fuel id rest str.
Proof. reflexivity. Qed.

(** With a budget of one iteration per remaining byte the loop ends, with
    a summary that extends the one it started from or with a panic; either
    way only the temperature gauge was touched. *)
Lemma records_spec fuel id rest str w :
  (length rest ≤ fuel)%nat →
  match records fuel id rest str w with
  | Returns res w' => extends str res ∧ temp_gauges id w w'
  | Panics w' => temp_gauges id w w'
  | OutOfFuel => False
  end.
Proof.
  revert rest str w.
  induction fuel as [|fuel IH]; intros [|c tl] str w Hlen; cbn [length] in Hlen;
    try lia; try (split; [apply extends_refl | apply temp_gauges_refl]).
  rewrite records_cons. unfold mbind, M_bind.
  pose proof (record_spec id c tl str w) as Hr.
  destruct (record id (c :: tl) str w) as [[rest' str'] w'|w'|]; [| |done].
  - destruct Hr as (Hsuf & Hext & Hw). apply suffix_length in Hsuf.
    specialize (IH rest' str' w' ltac:(lia)).
    destruct (records fuel id rest' str' w') as [res w''|w''|]; [| |done].
    + destruct IH. split; [by eapply extends_trans | by eapply temp_gauges_trans].
    + by eapply temp_gauges_trans.
  - subst. apply temp_gauges_refl.
Qed.

(** Any budget of at least [length rest] gives the same outcome. *)
Lemma records_fuel n m id rest str w :
  (length rest ≤ n)%nat → (length rest ≤ m)%nat →
  records n id rest str w = records m id rest str w.
Proof.
  revert m rest str w.
  induction n as [|n IH]; intros [|m] [|c tl] str w Hn Hm; cbn [length] in *;
    try lia; try reflexivity.
  rewrite !records_cons. unfold mbind, M_bind.
  pose proof (record_spec id c tl str w) as Hr.
  destruct (record id (c :: tl) str w) as [[rest' str'] w'|w'|]; [|done..].
  destruct Hr as (Hsuf & _). apply suffix_length in Hsuf.
  apply IH; lia.
Qed.

(** ** The header *)

Lemma decode_foreign id data w :
  (length data < 7)%nat ∨ take 5 data ≠ magic →
  decode id data w = Returns None w.
Proof.
  intros H. unfold decode.
  destruct (Nat.ltb_spec (length data) 7) as [|Hlen]; [done|].
  destruct H as [|H]; [lia|].
  unfold bytes_Equal. by rewrite bool_decide_eq_false_2.
Qed.

Lemma valid_header data :
  (7 ≤ length data)%nat → take 5 data = magic →
  ∃ b r rest, data = magic ++ b :: r :: rest.
Proof.
  intros Hlen Hm.
  rewrite <- (take_drop 5 data), Hm.
  destruct (drop 5 data) as [|b [|r rest]] eqn:Hd;
    [apply (f_equal length) in Hd; rewrite length_drop in Hd; cbn in Hd; lia..|].
  by exists b, r, rest.
Qed.

Lemma decode_header id b r rest w :
  decode id (magic ++ b :: r :: rest) w =
  (res ← records (length rest) id rest (summary0 b); mret (Some res))
    (battery_set id b w).
Proof. reflexivity. Qed.

(** ** The update store *)

Lemma applySummary_new id res w :
  updates w !! id = None → res ≠ "" →
  applySummary id res w =
  Returns tt (World (<[id := Update res true]> (updates w)) (trace w ++ [LogNew id res])).
Proof.
  intros Hnone Hres. unfold applySummary, get_update, set_update.
  M_run. rewrite Hnone. cbn.
  rewrite bool_decide_eq_true_2 by done. cbn.
  by rewrite insert_insert_eq.
Qed.

Lemma applySummary_same id res w u :
  updates w !! id = Some u → message u = res →
  applySummary id res w = Returns tt w.
Proof.
  intros Hsome Hmsg. unfold applySummary, get_update, set_update.
  M_run. rewrite Hsome. cbn.
  rewrite bool_decide_eq_false_2 by (intros ?; done). done.
Qed.

Lemma applySummary_differs id res w u :
  updates w !! id = Some u → message u ≠ res →
  applySummary id res w =
  Returns tt (World (<[id := Update res true]> (updates w)) (trace w)).
Proof.
  intros Hsome Hmsg. unfold applySummary, get_update, set_update.
  M_run. rewrite Hsome. cbn.
  by rewrite bool_decide_eq_true_2.
Qed.

Lemma drain_entry_spec k u w :
  drain_entry (k, u) w =
  Returns tt (if changed u
              then World (<[k := cleared u]> (updates w))
                         (trace w ++ [LogUpdate k (message u)])
              else w).
Proof. unfold drain_entry. cbn [fst snd]. by destruct (changed u). Qed.

Lemma for_each_drain l w :
  for_each drain_entry l w =
  Returns tt (World (clear_in l (updates w)) (trace w ++ drained l)).
Proof.
  revert w. induction l as [|[k u] l IH]; intros w.
  - cbn. rewrite app_nil_r. by destruct w.
  - cbn [for_each].
    rewrite (M_bind_Returns _ _ _ _ _ (drain_entry_spec k u w)), IH.
    unfold drained, clear_in. cbn [fst snd foldl].
    destruct (changed u) eqn:Hc.
    + rewrite filter_cons_True by done. cbn. by rewrite <- app_assoc.
    + by rewrite filter_cons_False by (cbn; congruence).
Qed.

Lemma clear_in_lookup l m k :
  NoDup l.*1 →
  clear_in l m !! k =
  match (list_to_map l : gmap string update) !! k with
  | Some u => if changed u then Some (cleared u) else m !! k
  | None => m !! k
  end.
Proof.
  revert m. induction l as [|[k0 u0] l IH]; intros m Hnd.
  - cbn. by rewrite lookup_empty.
  - cbn [fmap list_fmap fst] in Hnd. apply NoDup_cons in Hnd as [Hk0 Hnd].
    unfold clear_in. cbn [foldl fst snd list_to_map foldr].
    fold (clear_in l (if changed u0 then <[k0:=cleared u0]> m else m)).
    rewrite IH by done.
    destruct (decide (k = k0)) as [->|Hne].
    + rewrite lookup_insert_eq.
      rewrite (not_elem_of_list_to_map_1 l k0) by done.
      destruct (changed u0); [by rewrite lookup_insert_eq | done].
    + rewrite lookup_insert_ne by done.
      destruct (changed u0); [by rewrite lookup_insert_ne | done].
Qed.

Lemma clear_in_map (m : gmap string update) :
  clear_in (map_to_list m) m = cleared <$> m.
Proof.
  apply map_eq; intros k.
  rewrite clear_in_lookup by apply NoDup_fst_map_to_list.
  rewrite list_to_map_to_list, lookup_fmap.
  by destruct (m !! k) as [[msg []]|].
Qed.

(** One tick logs the changed entries and clears every flag. *)
Lemma drainChanged_spec w :
  drainChanged w =
  Returns tt (World (cleared <$> updates w)
                    (trace w ++ drained (map_to_list (updates w)))).
Proof. unfold drainChanged. by rewrite for_each_drain, clear_in_map. Qed.

Lemma drained_absent id l :
  id ∉ l.*1 → filter (λ e, subject e = Some id) (drained l) = [].
Proof.
  induction l as [|[k u] l IH]; [done|]. cbn [fmap list_fmap fst].
  intros [Hne Hl]%not_elem_of_cons. unfold drained.
  destruct (changed u) eqn:Hc.
  - rewrite filter_cons_True by done. cbn [fmap list_fmap fst snd].
    rewrite filter_cons_False by (cbn; congruence). by apply IH.
  - rewrite filter_cons_False by (cbn; congruence). by apply IH.
Qed.

Lemma drained_present id u l :
  NoDup l.*1 → (id, u) ∈ l →
  filter (λ e, subject e = Some id) (drained l) =
  if changed u then [LogUpdate id (message u)] else [].
Proof.
  induction l as [|[k0 u0] l IH]; [by intros _ ?%elem_of_nil|].
  cbn [fmap list_fmap fst]. intros [Hk0 Hnd]%NoDup_cons Hin.
  apply elem_of_cons in Hin as [[= <- <-]|Hin].
  - unfold drained. destruct (changed u) eqn:Hc.
    + rewrite filter_cons_True by done. cbn [fmap list_fmap fst snd].
      rewrite filter_cons_True by done. f_equal. by apply drained_absent.
    + rewrite filter_cons_False by (cbn; congruence). by apply drained_absent.
  - assert (k0 ≠ id) as Hne.
    { intros ->. apply Hk0. apply list_elem_of_fmap. by exists (id, u). }
    rewrite <- IH by done. unfold drained.
    destruct (changed u0) eqn:Hc.
    + rewrite filter_cons_True by done. cbn [fmap list_fmap fst snd].
      by rewrite filter_cons_False by (cbn; congruence).
    + by rewrite filter_cons_False by (cbn; congruence).
Qed.

Lemma drained_cleared (m : gmap string update) :
  drained (map_to_list (cleared <$> m)) = [].
Proof.
  rewrite map_to_list_fmap. unfold drained.
  induction (map_to_list m) as [|[k u] l IH]; [done|].
  cbn [fmap list_fmap]. by rewrite filter_cons_False by (cbn; congruence).
Qed.

Lemma cleared_idemp (m : gmap string update) :
  cleared <$> (cleared <$> m) = cleared <$> m.
Proof. by rewrite <- map_fmap_compose. Qed.

(** ** Outcomes of [decode] and [onDiscovery] *)

Lemma decode_spec id data w :
  match decode id data w with
  | Returns None w' =>
      w' = w ∧ ((length data < 7)%nat ∨ take 5 data ≠ magic)
  | Returns (Some res) w' =>
      ∃ b r rest, data = magic ++ b :: r :: rest ∧
        extends (summary0 b) res ∧ temp_gauges id (battery_set id b w) w'
  | Panics w' =>
      ∃ b r rest, data = magic ++ b :: r :: rest ∧
        temp_gauges id (battery_set id b w) w'
  | OutOfFuel => False
  end.
Proof.
  destruct (decide (length data < 7)%nat) as [Hlen|Hlen];
    [rewrite decode_foreign by auto; auto|].
  destruct (decide (take 5 data = magic)) as [Hm|Hm];
    [|rewrite decode_foreign by auto; auto].
  destruct (valid_header data) as (b & r & rest & ->); [lia|done|].
  rewrite decode_header. unfold mbind, M_bind.
  pose proof (records_spec (length rest) id rest (summary0 b)
                (battery_set id b w) (le_n _)) as Hr.
  destruct (records _ _ _ _ _) as [res w'|w'|]; [| |done].
  - destruct Hr. by exists b, r, rest.
  - by exists b, r, rest.
Qed.

Lemma summary0_nonempty b : summary0 b ≠ "".
Proof. discriminate. Qed.

Lemma onDiscovery_foreign id data rssi w :
  (length data < 7)%nat ∨ take 5 data ≠ magic →
  onDiscovery id data rssi w = Returns tt w.
Proof.
  intros H. unfold onDiscovery.
  by rewrite (M_bind_Returns _ _ _ _ _ (decode_foreign id data w H)).
Qed.

Lemma onDiscovery_Panics id data rssi w w' :
  onDiscovery id data rssi w = Panics w' ↔ decode id data w = Panics w'.
Proof.
  unfold onDiscovery, mbind, M_bind.
  destruct (decode id data w) as [[res|] w1|w1|]; [|split; discriminate|split; intros [= ->]; done|split; discriminate].
  unfold applySummary, get_update, set_update. M_run.
  destruct (updates w1 !! id); cbn; case_bool_decide; split; discriminate.
Qed.

Lemma onDiscovery_total id data rssi w : onDiscovery id data rssi w ≠ OutOfFuel.
Proof.
  unfold onDiscovery, mbind, M_bind.
  pose proof (decode_spec id data w) as Hd.
  destruct (decode id data w) as [[res|] w1|w1|]; try done.
  unfold applySummary, get_update, set_update. M_run.
  destruct (updates w1 !! id); cbn; case_bool_decide; done.
Qed.

(** ** Positions the loop reaches *)

Lemma reaches_records id rest str w rest' str' w' :
  reaches id rest str w rest' str' w' →
  records (length rest) id rest str w = records (length rest') id rest' str' w'.
Proof.
  induction 1 as [|c tl str w rest1 str1 w1 rest2 str2 w2 Hrec _ IH]; [done|].
  cbn [length]. rewrite records_cons, (M_bind_Returns _ _ _ _ _ Hrec).
  rewrite <- IH. apply records_fuel; [|done].
  pose proof (record_spec id c tl str w) as Hs. rewrite Hrec in Hs.
  destruct Hs as (Hsuf & _). by apply suffix_length.
Qed.



(** ** Truncated records *)

Lemma record_truncated id c tl str w :
  record id (c :: tl) str w = Panics w ↔ truncated (c :: tl).
Proof.
  unfold truncated, record_need.
  record_cases; M_run.
  all: cbn [negb length lookup list_lookup]; rewrite ?Z.eqb_refl.
  all: repeat match goal with
         | H : ?a ≠ ?b |- context [?a =? ?b] =>
             rewrite (proj2 (Z.eqb_neq a b) H)
         | H : ?a = _ |- context [?a =? _] => rewrite H
         end; cbn [Z.eqb Pos.eqb].
  all: cbn [length] in *; change (Z.to_nat 2) with 2%nat in *.
  all: split;
    [ intros ?; first [discriminate | split; [done|lia]]
    | intros [_ ?]; first [reflexivity | exfalso; lia] ].
Qed.

(** A record short of the bytes it declares is truncated. *)
Lemma declared_need_le rest : (declared_need rest ≤ record_need rest)%nat.
Proof.
  destruct rest as [|c tl]; [done|]. unfold declared_need, record_need.
  repeat case_match; lia.
Qed.

Lemma declared_truncated rest :
  rest ≠ [] → (length rest < declared_need rest)%nat → truncated rest.
Proof.
  intros Hne Hlen. split; [done|].
  pose proof (declared_need_le rest). lia.
Qed.

(** ** Little-endian values *)

Lemma byte_val_range b : 0 ≤ byte_val b < 256.
Proof.
  unfold byte_val. pose proof (Byte.to_N_bounded b). lia.
Qed.

Lemma lor_shiftl_8 a b :
  0 ≤ a < 256 → 0 ≤ b → Z.lor a (Z.shiftl b 8) = a + 256 * b.
Proof.
  intros Ha Hb.
  assert (Z.land a (Z.shiftl b 8) = 0) as Hland.
  { apply Z.bits_inj'. intros n Hn. rewrite Z.land_spec, Z.bits_0.
    destruct (Z.lt_ge_cases n 8) as [Hlt|Hge].
    - rewrite Z.shiftl_spec_low by done. apply andb_false_r.
    - destruct (decide (a = 0)) as [->|Hne]; [by rewrite Z.bits_0|].
      rewrite (Z.bits_above_log2 a n); [done|lia|].
      apply Z.log2_lt_pow2; [lia|].
      apply Z.lt_le_trans with (2 ^ 8); [lia|].
      apply Z.pow_le_mono_r; lia. }
  rewrite <- Z.lxor_lor, <- Z.add_nocarry_lxor by done.
  rewrite Z.shiftl_mul_pow2 by lia. lia.
Qed.

Lemma Uint16_value lo hi :
  Z.lor (byte_val lo) (Z.shiftl (byte_val hi) 8) = byte_val lo + 256 * byte_val hi.
Proof.
  pose proof (byte_val_range lo). pose proof (byte_val_range hi).
  apply lor_shiftl_8; lia.
Qed.

(** * The claims *)

(** C7. An advertisement shorter than 7 bytes, or whose first 5 bytes are
    not the magic prefix, is not ours: [decode] answers [None] and
    [onDiscovery] returns with the world as it found it, so the map from
    device id to entry is unchanged and nothing was logged (nor set on a
    gauge). *)
Theorem foreign_advertisement_ignored id data rssi w :
  (length data < 7)%nat ∨ take 5 data ≠ magic →
  decode id data w = Returns None w ∧
  onDiscovery id data rssi w = Returns tt w.
Proof.
  intros H. split; [by apply decode_foreign | by apply onDiscovery_foreign].
Qed.

Lemma foreign_advertisement_ignored_witness :
  ((length [x85; x00; x02] < 7)%nat ∨ take 5 [x85; x00; x02] ≠ magic) ∧
  (decode "dev" [x85; x00; x02] newState = Returns None newState ∧
   onDiscovery "dev" [x85; x00; x02] 0 newState = Returns tt newState).
Proof.
  assert ((length [x85; x00; x02] < 7)%nat ∨ take 5 [x85; x00; x02] ≠ magic) as H.
  { left. cbn. lia. }
  split; [exact H|].
  exact (foreign_advertisement_ignored "dev" [x85; x00; x02] 0 newState H).
Defined.

(** C8. [85 00 02 00 3c 32 00] decodes to the summary ["batt:50%"].  With
    [43 90 01] appended the record has type [0x03] with has-data set, its
    value is the little-endian [0x0190 = 400], the temperature is
    [400 * 0.0625 = 25] degrees and the summary is
    ["batt:50% temp:25.0°C"]. *)
Theorem decode_battery_and_temperature id w :
  decode id header50 w =
    Returns (Some "batt:50%")
      (World (updates w) (trace w ++ [GaugeSet battery id (inject_Z 50)])) ∧
  dataType (byte_val x43) = 0x03 ∧ hasData (byte_val x43) = true ∧
  int16 (Z.lor (byte_val x90) (Z.shiftl (byte_val x01) 8)) = 400 ∧
  (0.0625 * inject_Z 400 == inject_Z 25)%Q ∧
  decode id (header50 ++ [x43; x90; x01]) w =
    Returns (Some "batt:50% temp:25.0°C")
      (World (updates w)
         (trace w ++ [GaugeSet battery id (inject_Z 50);
                      GaugeSet airTemp id (0.0625 * inject_Z 400)%Q])).
Proof.
  split_and!; try reflexivity.
  unfold header50. cbn [app].
  change [x85; x00; x02; x00; x3c; x32; x00; x43; x90; x01]
    with (magic ++ x32 :: x00 :: [x43; x90; x01]).
  assert (∀ w', record id [x43; x90; x01] (summary0 x32) w' =
            Returns ([], "batt:50% temp:25.0°C")
              (World (updates w')
                 (trace w' ++ [GaugeSet airTemp id (0.0625 * inject_Z 400)%Q])))
    as Hrec by (intros; vm_compute; reflexivity).
  rewrite decode_header. cbn [length].
  rewrite (M_bind_Returns (records 3 id _ _) _ _ "batt:50% temp:25.0°C"
             (World (updates w)
                (trace w ++ [GaugeSet battery id (inject_Z 50);
                             GaugeSet airTemp id (0.0625 * inject_Z 400)%Q]))).
  - reflexivity.
  - rewrite records_cons, (M_bind_Returns _ _ _ _ _ (Hrec _)).
    cbn. by rewrite <- app_assoc.
Qed.

(** C10. Every iteration of the record loop consumes the control byte:
    when an iteration returns, the bytes left are a suffix of those after
    the control byte, so strictly fewer.  Hence
    the loop ends within one iteration per byte, whatever the bytes are
    (unknown data-types included): a budget of [length rest] iterations is
    never exhausted, a larger one changes nothing, and [onDiscovery]
    always returns or panics. *)
Theorem record_loop_terminates id rest str w data rssi :
  (∀ c tl rest' str' w',
      rest = c :: tl → record id rest str w = Returns (rest', str') w' →
      rest' `suffix_of` tl ∧ (length rest' < length rest)%nat) ∧
  (∀ fuel, (length rest ≤ fuel)%nat →
      records fuel id rest str w ≠ OutOfFuel ∧
      records fuel id rest str w = records (length rest) id rest str w) ∧
  onDiscovery id data rssi w ≠ OutOfFuel.
Proof.
  split_and!.
  - intros c tl rest' str' w' -> Hrec.
    pose proof (record_spec id c tl str w) as Hs. rewrite Hrec in Hs.
    destruct Hs as (Hsuf & _). split; [done|].
    apply suffix_length in Hsuf. cbn [length]. lia.
  - intros fuel Hfuel. split.
    + pose proof (records_spec fuel id rest str w Hfuel) as Hs.
      intros Heq. by rewrite Heq in Hs.
    + by apply records_fuel.
  - apply onDiscovery_total.
Qed.

Lemma record_loop_terminates_witness :
  (length [x07] < length [x50; x07])%nat ∧
  records 5 "dev" [x50; x07] "batt:50%" newState ≠ OutOfFuel ∧
  onDiscovery "dev" (header50 ++ [x50; x07]) 0 newState ≠ OutOfFuel.
Proof.
  destruct (record_loop_terminates "dev" [x50; x07] "batt:50%" newState
              (header50 ++ [x50; x07]) 0)
    as (Hstep & Hfuel & Htotal).
  split_and!.
  - apply (Hstep x50 [x07] [x07] "batt:50%" newState); reflexivity.
  - apply (Hfuel 5%nat). cbn. lia.
  - apply Htotal.
Defined.

Lemma applySummary_stores id res w :
  res ≠ "" →
  ∃ w' c, applySummary id res w = Returns tt w' ∧
          updates w' !! id = Some (Update res c).
Proof.
  intros Hres. destruct (updates w !! id) as [[msg c]|] eqn:Hid.
  - destruct (decide (msg = res)) as [->|Hne].
    + exists w, c. split; [|done]. by eapply applySummary_same.
    + eexists _, true. split; [by eapply applySummary_differs|].
      cbn. by rewrite lookup_insert_eq.
  - eexists _, true. split; [by apply applySummary_new|].
    cbn. by rewrite lookup_insert_eq.
Qed.

(** C9. Whatever the store holds, after the summaries ["batt:50%"] and
    then ["batt:49%"] met the entry of [id], that entry is marked changed;
    the next tick writes exactly one line for [id] and clears the flag;
    a second tick with nothing in between writes nothing, for no device,
    and leaves the store as it is.  Started from the empty store, the
    first tick writes that one line and nothing else. *)
Theorem change_then_drain id w :
  ∃ w2 w3 w4,
    (applySummary id "batt:50%";; applySummary id "batt:49%") w = Returns tt w2 ∧
    updates w2 !! id = Some (Update "batt:49%" true) ∧
    drainChanged w2 = Returns tt w3 ∧
    trace w3 = trace w2 ++ drained (map_to_list (updates w2)) ∧
    filter (λ e, subject e = Some id) (drained (map_to_list (updates w2))) =
      [LogUpdate id "batt:49%"] ∧
    updates w3 !! id = Some (Update "batt:49%" false) ∧
    drainChanged w3 = Returns tt w4 ∧
    trace w4 = trace w3 ∧ updates w4 = updates w3 ∧
    (applySummary id "batt:50%";; applySummary id "batt:49%";;
     drainChanged;; drainChanged) newState =
      Returns tt (World {[id := Update "batt:49%" false]}
                    [LogNew id "batt:50%"; LogUpdate id "batt:49%"]).
Proof.
  destruct (applySummary_stores id "batt:50%" w) as (w1 & c & H1 & Hid1); [done|].
  pose proof (applySummary_differs id "batt:49%" w1 _ Hid1) as H2.
  set (w2 := World (<[id := Update "batt:49%" true]> (updates w1)) (trace w1)) in *.
  assert (updates w2 !! id = Some (Update "batt:49%" true)) as Hid2
    by apply lookup_insert_eq.
  exists w2. eexists. eexists. split_and!.
  - rewrite (M_bind_Returns _ _ _ _ _ H1). by apply H2.
  - done.
  - apply drainChanged_spec.
  - done.
  - rewrite (drained_present id (Update "batt:49%" true)); [done| |].
    + apply NoDup_fst_map_to_list.
    + by apply elem_of_map_to_list.
  - cbn [updates]. by rewrite lookup_fmap, Hid2.
  - apply drainChanged_spec.
  - cbn [trace updates]. by rewrite drained_cleared, app_nil_r.
  - cbn [updates]. apply cleared_idemp.
  - rewrite (M_bind_Returns _ _ _ _ _
               (applySummary_new id "batt:50%" newState (lookup_empty _) ltac:(done))).
    erewrite M_bind_Returns;
      [|by eapply applySummary_differs; [apply lookup_insert_eq|]].
    rewrite (M_bind_Returns _ _ _ _ _ (drainChanged_spec _)).
    rewrite drainChanged_spec. cbn [updates trace newState].
    rewrite insert_insert_eq, insert_empty, cleared_idemp, drained_cleared.
    rewrite map_fmap_singleton, map_to_list_singleton. by rewrite app_nil_r.
Qed.

Lemma unknown_type_neq t :
  known_type t = false → t ≠ 0x01 ∧ t ≠ 0x02 ∧ t ≠ 0x03 ∧ t ≠ 0x2f ∧ t ≠ 0x3f.
Proof.
  unfold known_type. intros H%bool_decide_eq_false.
  split_and!; intros ->; apply H; set_solver.
Qed.

(** C1, as stated, fails: [0x50] is data-type [0x10] with has-data set, and
    the payload is decoded without any failure; the byte after [0x50] is
    taken as the next control byte. *)
Lemma unknown_type_no_failure :
  known_type (dataType (byte_val x50)) = false ∧
  hasData (byte_val x50) = true ∧
  decode "dev" (header50 ++ [x50; x43; x90; x01]) newState =
    Returns (Some "batt:50% temp:25.0°C")
      (World ∅ [GaugeSet battery "dev" (inject_Z 50);
                GaugeSet airTemp "dev" (0.0625 * inject_Z 400)%Q]).
Proof. split_and!; vm_compute; reflexivity. Qed.

(** C1, amended.  The switch has no default case: a record with has-data
    set and a data-type other than [0x01], [0x02], [0x03], [0x2f], [0x3f]
    costs its control byte (and its alert byte when has-alert is set), adds
    nothing to the summary and has no effect, and decoding goes on with the
    next byte; a payload with such a record right after the header decodes
    as the payload without it.  Decoding of such a record does not loop:
    the budget of one iteration per byte is not exhausted. *)
Theorem unknown_type_skipped id c tl str w :
  hasData (byte_val c) = true →
  known_type (dataType (byte_val c)) = false →
  records (S (length tl)) id (c :: tl) str w ≠ OutOfFuel ∧
  (hasAlert (byte_val c) = false →
     record id (c :: tl) str w = Returns (tl, str) w ∧
     records (S (length tl)) id (c :: tl) str w = records (length tl) id tl str w ∧
     ∀ b r, decode id (magic ++ b :: r :: c :: tl) w =
            decode id (magic ++ b :: r :: tl) w) ∧
  (hasAlert (byte_val c) = true → ∀ a tl', tl = a :: tl' →
     record id (c :: tl) str w = Returns (tl', str) w ∧
     records (S (length tl)) id (c :: tl) str w = records (length tl') id tl' str w).
Proof.
  intros Hdata (H1 & H2 & H3 & H4 & H5)%unknown_type_neq.
  assert (∀ str w, record id (c :: tl) str w =
               (rest ← (if hasAlert (byte_val c) then slice_from tl 1 else mret tl);
                mret (rest, str)) w) as Hrec.
  { intros str0 w0. unfold record. M_simp. rewrite Hdata. cbn [negb].
    rewrite !(proj2 (Z.eqb_neq _ _)) by done. done. }
  split_and!.
  - pose proof (records_spec (S (length tl)) id (c :: tl) str w (le_n _)) as Hs.
    intros Heq. by rewrite Heq in Hs.
  - intros Halert. rewrite Halert in Hrec.
    assert (∀ str w, records (S (length tl)) id (c :: tl) str w =
                     records (length tl) id tl str w) as Hloop.
    { intros str0 w0. by rewrite records_cons, (M_bind_Returns _ _ _ _ _ (Hrec _ _)). }
    split_and!; [apply Hrec | apply Hloop |].
    intros b r. rewrite !decode_header.
    unfold mbind, M_bind. cbn [length]. by rewrite Hloop.
  - intros Halert a tl' ->. rewrite Halert in Hrec.
    assert (record id (c :: a :: tl') str w = Returns (tl', str) w) as Hr
      by (rewrite Hrec; by M_simp).
    split; [done|].
    rewrite records_cons, (M_bind_Returns _ _ _ _ _ Hr).
    apply records_fuel; cbn [length]; lia.
Qed.

Lemma unknown_type_skipped_witness :
  (hasData (byte_val x50) = true ∧ known_type (dataType (byte_val x50)) = false) ∧
  record "dev" [x50; x43; x90; x01] "batt:50%" newState =
    Returns ([x43; x90; x01], "batt:50%") newState.
Proof.
  assert (hasData (byte_val x50) = true) as Hd by reflexivity.
  assert (known_type (dataType (byte_val x50)) = false) as Hk by reflexivity.
  split; [by split|].
  destruct (unknown_type_skipped "dev" x50 [x43; x90; x01] "batt:50%" newState Hd Hk)
    as (_ & Hplain & _).
  apply Hplain. reflexivity.
Defined.

(** C4, as stated, fails: the control byte [0x3f] has has-data clear, so
    the iteration goes on at [continue]; the bytes after it are read and
    the temperature record among them is decoded. *)
Lemma control_3f_does_not_stop :
  dataType (byte_val x3f) = 0x3f ∧ hasData (byte_val x3f) = false ∧
  decode "dev" (header50 ++ [x3f; x43; x90; x01]) newState =
    Returns (Some "batt:50% temp:25.0°C")
      (World ∅ [GaugeSet battery "dev" (inject_Z 50);
                GaugeSet airTemp "dev" (0.0625 * inject_Z 400)%Q]).
Proof. split_and!; vm_compute; reflexivity. Qed.

(** C4, amended.  The loop stops at a record of data-type [0x3f] that has
    has-data set (control byte [0x7f], or [0xff] followed by its alert
    byte): whenever decoding reaches such a record, it returns the summary
    gathered so far, whatever bytes follow the record, and none of them
    has any effect.  The control byte [0x3f] itself, with has-data clear,
    is passed over and decoding goes on with the next byte. *)
Theorem handshake_stops_decoding id c tl str w rest0 str0 w0 :
  dataType (byte_val c) = 0x3f →
  hasData (byte_val c) = true →
  (hasAlert (byte_val c) = false →
     (∀ fuel, records (S fuel) id (c :: tl) str w = Returns str w) ∧
     (reaches id rest0 str0 w0 (c :: tl) str w →
        records (length rest0) id rest0 str0 w0 = Returns str w) ∧
     (∀ b r, decode id (magic ++ b :: r :: c :: tl) w =
             Returns (Some (summary0 b)) (battery_set id b w))) ∧
  (hasAlert (byte_val c) = true → ∀ a tl', tl = a :: tl' →
     (∀ fuel, records (S fuel) id (c :: tl) str w = Returns str w) ∧
     (reaches id rest0 str0 w0 (c :: tl) str w →
        records (length rest0) id rest0 str0 w0 = Returns str w)) ∧
  (∀ fuel, records (S fuel) id (x3f :: tl) str w = records fuel id tl str w).
Proof.
  intros Htype Hdata.
  assert (∀ str w, record id (c :: tl) str w =
               (rest ← (if hasAlert (byte_val c) then slice_from tl 1 else mret tl);
                mret ([], str)) w) as Hrec.
  { intros str1 w1. unfold record. M_simp. rewrite Hdata, Htype. done. }
  split_and!.
  - intros Halert. rewrite Halert in Hrec.
    assert (∀ fuel str w, records (S fuel) id (c :: tl) str w = Returns str w)
      as Hloop.
    { intros fuel str1 w1.
      rewrite records_cons, (M_bind_Returns _ _ _ _ _ (Hrec _ _)).
      by destruct fuel. }
    split_and!; [done| |].
    + intros ->%reaches_records. apply Hloop.
    + intros b r. rewrite decode_header. cbn [length].
      by rewrite (M_bind_Returns _ _ _ _ _ (Hloop _ _ _)).
  - intros Halert a tl' ->. rewrite Halert in Hrec.
    assert (∀ fuel, records (S fuel) id (c :: a :: tl') str w = Returns str w)
      as Hloop.
    { intros fuel. rewrite records_cons.
      erewrite M_bind_Returns; [|rewrite Hrec; by M_simp].
      by destruct fuel. }
    split; [done|].
    intros ->%reaches_records. apply Hloop.
  - intros fuel. by rewrite records_cons.
Qed.

Lemma handshake_stops_decoding_witness :
  (dataType (byte_val x7f) = 0x3f ∧ hasData (byte_val x7f) = true ∧
   hasAlert (byte_val x7f) = false ∧
   reaches "dev" [x43; x90; x01; x7f; x43; x00] "batt:50%" newState
     [x7f; x43; x00] "batt:50% temp:25.0°C"
     (World ∅ [GaugeSet airTemp "dev" (0.0625 * inject_Z 400)%Q])) ∧
  records 6 "dev" [x43; x90; x01; x7f; x43; x00] "batt:50%" newState =
    Returns "batt:50% temp:25.0°C"
      (World ∅ [GaugeSet airTemp "dev" (0.0625 * inject_Z 400)%Q]).
Proof.
  assert (dataType (byte_val x7f) = 0x3f) as Ht by reflexivity.
  assert (hasData (byte_val x7f) = true) as Hd by reflexivity.
  assert (hasAlert (byte_val x7f) = false) as Ha by reflexivity.
  assert (reaches "dev" [x43; x90; x01; x7f; x43; x00] "batt:50%" newState
            [x7f; x43; x00] "batt:50% temp:25.0°C"
            (World ∅ [GaugeSet airTemp "dev" (0.0625 * inject_Z 400)%Q])) as Hr.
  { eapply reaches_step; [vm_compute; reflexivity | apply reaches_here]. }
  split; [by split_and!|].
  destruct (handshake_stops_decoding "dev" x7f [x43; x00] "batt:50% temp:25.0°C"
              (World ∅ [GaugeSet airTemp "dev" (0.0625 * inject_Z 400)%Q])
              [x43; x90; x01; x7f; x43; x00] "batt:50%" newState Ht Hd)
    as (Hplain & _).
  destruct (Hplain Ha) as (_ & Hreach & _).
  exact (Hreach Hr).
Defined.

(** C5, as stated, fails for the length codes 0 and 3.  With length code 0
    the byte after the descriptor is read as the value but not consumed
    (it is the next control byte); with length code 3 one value byte is
    read and three are consumed. *)
Lemma light_length_code_not_one :
  dataLen (byte_val x00) ≠ 2 ∧
  record "dev" [x42; x00; x07; x08] "" newState =
    Returns ([x07; x08], " light:false/0/0/7") newState ∧
  dataLen (byte_val x03) ≠ 2 ∧
  record "dev" [x42; x03; x07; x08; x09; x0a] "" newState =
    Returns ([x0a], " light:false/0/0/7") newState.
Proof. split_and!; vm_compute; (reflexivity || discriminate). Qed.

(** C5, amended.  In a light record (data-type [0x02], has-data set) whose
    descriptor has length code 2 the value is the little-endian 16-bit
    number of the two bytes after the descriptor, and the descriptor and
    those two bytes are consumed (after the alert byte [a], when has-alert
    is set).  For any other length code [n] the value
    is the single byte after the descriptor, and the descriptor and [n]
    further bytes are consumed (a panic when fewer than [n] are left): the
    descriptor and one value byte exactly when [n = 1]. *)
Theorem light_record id c a d tl str w :
  dataType (byte_val c) = 0x02 →
  hasData (byte_val c) = true →
  (dataLen (byte_val d) = 2 → ∀ lo hi tl', tl = lo :: hi :: tl' →
     record id (c :: (if hasAlert (byte_val c) then [a] else []) ++ d :: tl) str w =
       Returns (tl', str +:+ light_summary (byte_val d)
                        (byte_val lo + 256 * byte_val hi)) w) ∧
  (dataLen (byte_val d) ≠ 2 → ∀ v tl', tl = v :: tl' →
     record id (c :: (if hasAlert (byte_val c) then [a] else []) ++ d :: tl) str w =
       if (Z.to_nat (dataLen (byte_val d)) <=? length tl)%nat
       then Returns (drop (Z.to_nat (dataLen (byte_val d))) tl,
                     str +:+ light_summary (byte_val d) (byte_val v)) w
       else Panics w) ∧
  (dataLen (byte_val d) = 1 → ∀ v tl', tl = v :: tl' →
     record id (c :: (if hasAlert (byte_val c) then [a] else []) ++ d :: tl) str w =
       Returns (tl', str +:+ light_summary (byte_val d) (byte_val v)) w).
Proof.
  intros Htype Hdata.
  assert (∀ tl,
    record id (c :: (if hasAlert (byte_val c) then [a] else []) ++ d :: tl) str w =
    (data ← (if dataLen (byte_val d) =? 2 then r1 ← slice_from (d :: tl) 1; Uint16 r1
             else index (d :: tl) 1);
     rest ← slice_from (d :: tl) (1 + Z.to_nat (dataLen (byte_val d)));
     mret (rest, str +:+ light_summary (byte_val d) data)) w) as Hrec.
  { intros tl0. unfold record. M_simp. rewrite Hdata, Htype.
    destruct (hasAlert (byte_val c)); cbn [app]; by M_simp. }
  split_and!.
  - intros Hlen lo hi tl' ->. rewrite Hrec, Hlen. M_simp.
    by rewrite Uint16_value.
  - intros Hlen v tl' ->. rewrite Hrec.
    rewrite (proj2 (Z.eqb_neq _ _) Hlen). M_simp.
    unfold slice_from. by destruct (_ <=? _)%nat.
  - intros Hlen v tl' ->. rewrite Hrec, Hlen. by M_simp.
Qed.

Lemma light_record_witness :
  (dataType (byte_val x42) = 0x02 ∧ hasData (byte_val x42) = true ∧
   dataLen (byte_val x03) ≠ 2) ∧
  record "dev" [x42; x03; x07; x08; x09; x0a] "" newState =
    Returns ([x0a], " light:false/0/0/7") newState.
Proof.
  assert (dataType (byte_val x42) = 0x02) as Ht by reflexivity.
  assert (hasData (byte_val x42) = true) as Hd by reflexivity.
  assert (dataLen (byte_val x03) ≠ 2) as Hl by (vm_compute; discriminate).
  split; [by split_and!|].
  destruct (light_record "dev" x42 x00 x03 [x07; x08; x09; x0a] "" newState Ht Hd)
    as (_ & Hother & _).
  exact (Hother Hl x07 [x08; x09; x0a] eq_refl).
Defined.

(** C3, as stated, fails: the entry of a device seen for the first time is
    left marked as changed, because the entry is created with an empty
    message and the comparison of line 203 then sees a different summary.
    The next tick reports the first observation once more, as a change. *)
Lemma first_observation_marked_changed :
  onDiscovery "dev" header50 0 newState =
    Returns tt (World {["dev" := Update "batt:50%" true]}
                  [GaugeSet battery "dev" (inject_Z 50); LogNew "dev" "batt:50%"]) ∧
  serve [Disco "dev" header50 0; Tick] newState =
    Returns false (World {["dev" := Update "batt:50%" false]}
                     [GaugeSet battery "dev" (inject_Z 50);
                      LogNew "dev" "batt:50%"; LogUpdate "dev" "batt:50%"]).
Proof. split; vm_compute; reflexivity. Qed.

(** C3, amended.  For a device id with no entry, a successful decode
    creates the entry and writes, at once, the line
    [<deviceID>: new: <summary>], the only line of the invocation; when
    [onDiscovery] returns, the entry holds the summary and is marked
    changed.  The next tick therefore reports the device: it writes exactly
    one line [<deviceID>: <summary>] for it and clears the flag. *)
Theorem first_observation id data rssi w res w1 :
  updates w !! id = None →
  decode id data w = Returns (Some res) w1 →
  onDiscovery id data rssi w =
    Returns tt (World (<[id := Update res true]> (updates w))
                  (trace w1 ++ [LogNew id res])) ∧
  line (LogNew id res) = Some (id +:+ ": new: " +:+ res) ∧
  filter (λ e, is_log e = true) (trace w1) =
    filter (λ e, is_log e = true) (trace w) ∧
  ∃ out w3,
    drainChanged (World (<[id := Update res true]> (updates w))
                    (trace w1 ++ [LogNew id res])) = Returns tt w3 ∧
    trace w3 = (trace w1 ++ [LogNew id res]) ++ out ∧
    filter (λ e, subject e = Some id) out = [LogUpdate id res] ∧
    line (LogUpdate id res) = Some (id +:+ ": " +:+ res) ∧
    updates w3 !! id = Some (Update res false) ∧
    ∀ evs, serve (Disco id data rssi :: Tick :: evs) w = serve evs w3.
Proof.
  intros Hnone Hdec.
  pose proof (decode_spec id data w) as Hs. rewrite Hdec in Hs.
  destruct Hs as (b & r & rest & -> & Hext & Hw).
  pose proof Hw as [Hupd _]. cbn [battery_set updates] in Hupd.
  assert (onDiscovery id (magic ++ b :: r :: rest) rssi w =
          Returns tt (World (<[id := Update res true]> (updates w))
                        (trace w1 ++ [LogNew id res]))) as Hon.
  { unfold onDiscovery. rewrite (M_bind_Returns _ _ _ _ _ Hdec).
    rewrite applySummary_new, Hupd; [done|congruence|].
    eapply extends_nonempty; [apply summary0_nonempty | done]. }
  split_and!.
  - done.
  - done.
  - rewrite (temp_gauges_no_log _ _ _ Hw). cbn [battery_set trace].
    rewrite filter_app, filter_cons_False by (cbn; congruence).
    by rewrite filter_nil, app_nil_r.
  - set (w2 := World (<[id := Update res true]> (updates w))
                 (trace w1 ++ [LogNew id res])) in *.
    assert (updates w2 !! id = Some (Update res true)) as Hid
      by apply lookup_insert_eq.
    exists (drained (map_to_list (updates w2))). eexists.
    split_and!; [apply drainChanged_spec|done| |done| |].
    + rewrite (drained_present id (Update res true)); [done| |].
      * apply NoDup_fst_map_to_list.
      * by apply elem_of_map_to_list.
    + cbn [updates]. by rewrite lookup_fmap, Hid.
    + intros evs. cbn [serve].
      rewrite (M_bind_Returns _ _ _ _ _ Hon).
      by rewrite (M_bind_Returns _ _ _ _ _ (drainChanged_spec w2)).
Qed.

Lemma first_observation_witness :
  ((updates newState !! "dev" = None) ∧
   decode "dev" header50 newState =
     Returns (Some "batt:50%") (World ∅ [GaugeSet battery "dev" (inject_Z 50)])) ∧
  onDiscovery "dev" header50 0 newState =
    Returns tt (World (<["dev" := Update "batt:50%" true]> (updates newState))
                  ([GaugeSet battery "dev" (inject_Z 50)] ++ [LogNew "dev" "batt:50%"])).
Proof.
  assert (updates newState !! "dev" = None) as Hn by reflexivity.
  assert (decode "dev" header50 newState =
          Returns (Some "batt:50%") (World ∅ [GaugeSet battery "dev" (inject_Z 50)]))
    as Hd by (vm_compute; reflexivity).
  split; [by split|].
  exact (proj1 (first_observation "dev" header50 0 newState "batt:50%" _ Hn Hd)).
Defined.

(** One iteration that returns sets the temperature gauge for a
    temperature record, to the value of the record, and has no other
    effect. *)
Lemma record_trace id c tl str w :
  match record id (c :: tl) str w with
  | Returns _ w' =>
      updates w' = updates w ∧
      trace w' = trace w ++ record_gauge id (c :: tl)
  | _ => True
  end.
Proof.
  unfold record_gauge.
  record_cases; M_run; try done.
  all: cbn [drop andb]; rewrite ?Z.eqb_refl, ?app_nil_r, ?Uint16_value.
  all: repeat match goal with
         | H : ?a ≠ ?b |- context [?a =? ?b] =>
             rewrite (proj2 (Z.eqb_neq a b) H)
         | H : ?a = _ |- context [?a =? _] => rewrite H
         end; cbn [Z.eqb Pos.eqb andb]; rewrite ?app_nil_r; try done.
Qed.

Lemma reaches_via_reaches id path rest str w rest' str' w' :
  reaches_via id path rest str w rest' str' w' →
  reaches id rest str w rest' str' w'.
Proof.
  induction 1; [apply reaches_here | by eapply reaches_step].
Qed.

(** The effects of the records decoded on the way are the temperature
    gauge values of the temperature records among them, in order. *)
Lemma reaches_via_trace id path rest str w rest' str' w' :
  reaches_via id path rest str w rest' str' w' →
  trace w' = trace w ++ flat_map (record_gauge id) path.
Proof.
  induction 1 as [|c tl str w rest1 str1 w1 path rest2 str2 w2 Hrec _ IH].
  - by rewrite app_nil_r.
  - pose proof (record_trace id c tl str w) as Ht. rewrite Hrec in Ht.
    destruct Ht as [_ Ht]. cbn [flat_map]. by rewrite IH, Ht, app_assoc.
Qed.

Lemma records_panics_via fuel id rest str w w' :
  (length rest ≤ fuel)%nat →
  records fuel id rest str w = Panics w' →
  ∃ path tl s, reaches_via id path rest str w tl s w' ∧ truncated tl.
Proof.
  revert rest str w.
  induction fuel as [|fuel IH]; intros [|c tl] str w Hlen; cbn [length] in Hlen;
    try lia; try done.
  rewrite records_cons. unfold mbind, M_bind.
  pose proof (record_spec id c tl str w) as Hr.
  destruct (record id (c :: tl) str w) as [[rest' str'] w1|w1|] eqn:Hrec; [| |done].
  - destruct Hr as (Hsuf%suffix_length & _). intros Hp.
    destruct (IH rest' str' w1 ltac:(lia) Hp) as (path & tl' & s & Hvia & Htr).
    exists ((c :: tl) :: path), tl', s. split; [by eapply via_step | done].
  - subst w1. intros [= <-]. exists [], (c :: tl), str.
    split; [apply via_here|]. by apply (record_truncated id c tl str w).
Qed.

(** C6, as stated, fails: the battery gauge is set on line 138, before the
    records are decoded, and the temperature gauge on line 183, inside the
    loop; a decode that then fails on a truncated record has already
    produced that output. *)
Lemma failed_decode_sets_gauges :
  onDiscovery "dev" (header50 ++ [x43]) 0 newState =
    Panics (World ∅ [GaugeSet battery "dev" (inject_Z 50)]) ∧
  onDiscovery "dev" (header50 ++ [x43; x90; x01; x43]) 0 newState =
    Panics (World ∅ [GaugeSet battery "dev" (inject_Z 50);
                     GaugeSet airTemp "dev" (0.0625 * inject_Z 400)%Q]).
Proof. split; vm_compute; reflexivity. Qed.

(** C6, amended.  A foreign advertisement produces no output at all.  An
    advertisement whose decode fails (a panic) produces no log line and
    leaves the store alone, but the battery gauge of the device has been
    set to byte 5 of the payload by then, and the temperature gauge once
    for each temperature record decoded before the failure, to the value
    of that record: the effects of the invocation are exactly the battery
    gauge followed by those temperature values, in the order of the
    records. *)
Theorem output_without_success id data rssi w :
  ((length data < 7)%nat ∨ take 5 data ≠ magic →
     onDiscovery id data rssi w = Returns tt w) ∧
  (∀ w', onDiscovery id data rssi w = Panics w' →
     updates w' = updates w ∧
     filter (λ e, is_log e = true) (trace w') =
       filter (λ e, is_log e = true) (trace w) ∧
     (∃ b gs, data !! 5%nat = Some b ∧
       trace w' = trace w ++ GaugeSet battery id (inject_Z (byte_val b)) :: gs ∧
       Forall (is_temp_gauge id) gs) ∧
     ∃ b r rest path tl str,
       data = magic ++ b :: r :: rest ∧
       reaches_via id path rest (summary0 b) (battery_set id b w) tl str w' ∧
       truncated tl ∧
       trace w' =
         trace w ++ GaugeSet battery id (inject_Z (byte_val b)) ::
                    flat_map (record_gauge id) path).
Proof.
  split; [apply onDiscovery_foreign|].
  intros w' Hp%onDiscovery_Panics.
  pose proof (decode_spec id data w) as Hs. rewrite Hp in Hs.
  destruct Hs as (b & r & rest & -> & Hw).
  pose proof Hw as [Hupd (gs & Htr & Hgs)]. cbn [battery_set updates trace] in *.
  split_and!; [done| | |].
  - rewrite (temp_gauges_no_log _ _ _ Hw). cbn [battery_set trace].
    rewrite filter_app, filter_cons_False by (cbn; congruence).
    by rewrite filter_nil, app_nil_r.
  - exists b, gs. split_and!; [done| |done].
    by rewrite Htr, <- app_assoc.
  - rewrite decode_header in Hp.
    destruct (records (length rest) id rest (summary0 b) (battery_set id b w))
      as [res w2|w2|] eqn:Hrec;
      rewrite ?(M_bind_Returns _ _ _ _ _ Hrec), ?(M_bind_Panics _ _ _ _ Hrec) in Hp;
      [done| |].
    + injection Hp as ->.
      destruct (records_panics_via _ _ _ _ _ _ (le_n _) Hrec)
        as (path & tl & s & Hvia & Htrunc).
      exists b, r, rest, path, tl, s. split_and!; [done..|].
      rewrite (reaches_via_trace _ _ _ _ _ _ _ _ Hvia). cbn [battery_set trace].
      by rewrite <- app_assoc.
    + unfold mbind, M_bind in Hp. by rewrite Hrec in Hp.
Qed.

Lemma output_without_success_witness :
  onDiscovery "dev" (header50 ++ [x43; x90; x01; x43]) 0 newState =
    Panics (World ∅ [GaugeSet battery "dev" (inject_Z 50);
                     GaugeSet airTemp "dev" (0.0625 * inject_Z 400)%Q]) ∧
  updates (World ∅ [GaugeSet battery "dev" (inject_Z 50);
                    GaugeSet airTemp "dev" (0.0625 * inject_Z 400)%Q]) =
    updates newState.
Proof.
  assert (onDiscovery "dev" (header50 ++ [x43; x90; x01; x43]) 0 newState =
          Panics (World ∅ [GaugeSet battery "dev" (inject_Z 50);
                           GaugeSet airTemp "dev" (0.0625 * inject_Z 400)%Q])) as Hp
    by (vm_compute; reflexivity).
  split; [exact Hp|].
  exact (proj1 (proj2 (output_without_success "dev"
                         (header50 ++ [x43; x90; x01; x43]) 0 newState)
                  _ Hp)).
Defined.




(** * Further properties of [onDiscovery] and [serve] *)

(** ** The decoder does not depend on the world *)

Lemma rebase_rebase {A} w w1 (r : result A) :
  rebase (World (updates w) (trace w ++ trace w1)) r = rebase w (rebase w1 r).
Proof. destruct r; cbn; by rewrite ?app_assoc. Qed.

Lemma framed_ret {A} (a : A) : framed (mret a).
Proof. intros [m t]. cbn. by rewrite app_nil_r. Qed.

Lemma framed_panic {A} : framed (@panic A).
Proof. intros [m t]. cbn. by rewrite app_nil_r. Qed.

Lemma framed_out_of_fuel {A} : framed (@out_of_fuel A).
Proof. by intros w. Qed.

Lemma framed_emit e : framed (emit e).
Proof. by intros w. Qed.

Lemma framed_bind {A B} (m : M A) (f : A → M B) :
  framed m → (∀ a, framed (f a)) → framed (m ≫= f).
Proof.
  intros Hm Hf w. unfold mbind, M_bind. rewrite Hm.
  destruct (m newState) as [a w1|w1|]; cbn; [|done..].
  by rewrite (Hf a (World _ _)), (Hf a w1), rebase_rebase.
Qed.

Lemma framed_index b i : framed (index b i).
Proof. unfold index. destruct (b !! i); [apply framed_ret | apply framed_panic]. Qed.

Lemma framed_slice_from b lo : framed (slice_from b lo).
Proof.
  unfold slice_from. destruct (_ <=? _)%nat; [apply framed_ret | apply framed_panic].
Qed.

Ltac solve_framed :=
  repeat first
    [ apply framed_ret | apply framed_panic | apply framed_out_of_fuel
    | apply framed_emit | apply framed_index | apply framed_slice_from
    | apply framed_bind; [|intros ?]
    | match goal with |- framed (if ?b then _ else _) => destruct b end
    | match goal with |- framed (let '(_, _) := ?p in _) => destruct p end ].

Lemma framed_Uint16 b : framed (Uint16 b).
Proof. unfold Uint16. solve_framed. Qed.

Lemma framed_record id rest str : framed (record id rest str).
Proof. unfold record. solve_framed; apply framed_Uint16 || idtac. Qed.

Lemma framed_records fuel id rest str : framed (records fuel id rest str).
Proof.
  revert rest str. induction fuel as [|fuel IH]; intros [|c tl] str;
    cbn [records]; try apply framed_ret; try apply framed_out_of_fuel.
  apply framed_bind; [apply framed_record|]. intros [rest' str']. apply IH.
Qed.

(** The decoder is a function of the device id and the payload alone:
    run in any world it gives the summary, or the panic, it gives in the
    empty world, appends the same gauge effects to the trace, and leaves
    the store as it is. *)
Theorem decode_independent_of_world id data w :
  decode id data w = rebase w (decode id data newState).
Proof.
  revert w. change (framed (decode id data)). unfold decode.
  solve_framed. apply framed_records.
Qed.

(** ** What [decode] does, whatever the payload *)

(** A decode never writes a log line and never changes the store.  When
    the header is valid it first sets the battery gauge of the device to
    byte 5 of the payload, and after that only sets its temperature gauge,
    whether it returns or panics; a summary it returns starts with the
    battery field of that byte.  It answers [None] only for a payload that
    is short or does not start with the magic prefix, with no effect. *)
Theorem decode_effects id data w :
  match decode id data w with
  | Returns None w' =>
      w' = w ∧ ((length data < 7)%nat ∨ take 5 data ≠ magic)
  | Returns (Some res) w' =>
      gauges_only id data w w' ∧
      ∃ b, data !! 5%nat = Some b ∧ extends (summary0 b) res
  | Panics w' => gauges_only id data w w'
  | OutOfFuel => False
  end.
Proof.
  pose proof (decode_spec id data w) as Hs.
  assert (∀ b r rest w', data = magic ++ b :: r :: rest →
            temp_gauges id (battery_set id b w) w' →
            gauges_only id data w w') as Hgauges.
  { intros b r rest w' -> Hw. pose proof Hw as [Hupd (gs & Htr & Hgs)].
    split_and!; [done|done| |].
    - rewrite (temp_gauges_no_log _ _ _ Hw). cbn [battery_set trace].
      rewrite filter_app, filter_cons_False by (cbn; congruence).
      by rewrite filter_nil, app_nil_r.
    - exists b, gs. split_and!; [done| |done].
      rewrite Htr. cbn. by rewrite <- app_assoc. }
  destruct (decode id data w) as [[res|] w'|w'|]; [| | |done].
  - destruct Hs as (b & r & rest & Hdata & Hext & Hw).
    split; [by eapply Hgauges|]. exists b. by subst.
  - done.
  - destruct Hs as (b & r & rest & Hdata & Hw). by eapply Hgauges.
Qed.

(** ** The store under [applySummary] *)

(** Lines 196-206 always return.  Afterwards the entry of [id] holds the
    summary; it is marked changed when it was already marked, or when the
    summary differs from what it held (from the empty message, for a new
    entry): a flag that is set is never cleared here.  The entries of the
    other devices are as they were, and the only line written is the
    [new:] line of a device that had no entry. *)
Theorem applySummary_entry id res w :
  ∃ w' u,
    applySummary id res w = Returns tt w' ∧
    updates w' !! id = Some u ∧
    message u = res ∧
    changed u =
      match updates w !! id with
      | Some u0 => changed u0 || bool_decide (message u0 ≠ res)
      | None => bool_decide (res ≠ "")
      end ∧
    (∀ id', id' ≠ id → updates w' !! id' = updates w !! id') ∧
    trace w' = trace w ++
      match updates w !! id with Some _ => [] | None => [LogNew id res] end.
Proof.
  unfold applySummary, get_update, set_update. M_run.
  destruct (updates w !! id) as [[msg c]|] eqn:Hid; cbn [message changed].
  - case_bool_decide as Hne; cbn.
    + eexists _, _. split; [done|]. cbn [updates trace].
      rewrite lookup_insert_eq, orb_true_r, app_nil_r.
      split_and!; try done. intros id' Hid'. by rewrite lookup_insert_ne.
    + subst msg.
      exists w, (Update res c). rewrite orb_false_r, app_nil_r. done.
  - case_bool_decide as Hne; cbn.
    + eexists _, _. split; [done|]. cbn [updates trace].
      rewrite lookup_insert_eq.
      split_and!; try done.
      * cbn. by rewrite bool_decide_eq_true_2 by congruence.
      * intros id' Hid'. by rewrite !lookup_insert_ne.
    + subst res.
      eexists _, _. split; [done|]. cbn [updates trace].
      rewrite lookup_insert_eq.
      split_and!; try done. intros id' Hid'. by rewrite !lookup_insert_ne.
Qed.

(** ** A device that is already known *)

(** For a device that has an entry, a successful decode writes no line.
    A summary equal to the stored message changes nothing; a different
    one replaces the message and marks the entry changed, to be reported
    by the next tick. *)
Theorem known_device_update id data rssi w u res w1 :
  updates w !! id = Some u →
  decode id data w = Returns (Some res) w1 →
  onDiscovery id data rssi w =
    Returns tt (if bool_decide (message u = res) then w1
                else World (<[id := Update res true]> (updates w)) (trace w1)) ∧
  filter (λ e, is_log e = true) (trace w1) =
    filter (λ e, is_log e = true) (trace w).
Proof.
  intros Hid Hdec.
  pose proof (decode_effects id data w) as Hs. rewrite Hdec in Hs.
  destruct Hs as ((_ & Hupd & Hlog & _) & _).
  split; [|done].
  unfold onDiscovery. rewrite (M_bind_Returns _ _ _ _ _ Hdec).
  case_bool_decide as Heq.
  - eapply applySummary_same; [by rewrite Hupd|done].
  - rewrite <- Hupd. eapply applySummary_differs; [by rewrite Hupd|done].
Qed.

Lemma known_device_update_witness :
  onDiscovery "dev" (header50 ++ [x43; x90; x01]) 0
    (World {["dev" := Update "batt:50%" false]} []) =
  Returns tt (World (<["dev" := Update "batt:50% temp:25.0°C" true]>
                       {["dev" := Update "batt:50%" false]})
                [GaugeSet battery "dev" (inject_Z 50);
                 GaugeSet airTemp "dev" (0.0625 * inject_Z 400)%Q]).
Proof.
  assert (updates (World {["dev" := Update "batt:50%" false]} []) !! "dev" =
          Some (Update "batt:50%" false)) as Hid by reflexivity.
  assert (decode "dev" (header50 ++ [x43; x90; x01])
            (World {["dev" := Update "batt:50%" false]} []) =
          Returns (Some "batt:50% temp:25.0°C")
            (World {["dev" := Update "batt:50%" false]}
               [GaugeSet battery "dev" (inject_Z 50);
                GaugeSet airTemp "dev" (0.0625 * inject_Z 400)%Q])) as Hd
    by (vm_compute; reflexivity).
  exact (proj1 (known_device_update "dev" _ 0 _ _ _ _ Hid Hd)).
Defined.

(** ** The same advertisement twice *)

(** When an advertisement has been handled, handling the same payload of
    the same device again returns, leaves the store as it is (in
    particular it marks nothing changed) and writes no line; it only sets
    the gauges again. *)
Theorem same_advertisement_again id data rssi rssi' w w1 :
  onDiscovery id data rssi w = Returns tt w1 →
  ∃ w2, onDiscovery id data rssi' w1 = Returns tt w2 ∧
        updates w2 = updates w1 ∧
        filter (λ e, is_log e = true) (trace w2) =
          filter (λ e, is_log e = true) (trace w1).
Proof.
  intros Hon. unfold onDiscovery in Hon. unfold mbind, M_bind in Hon.
  pose proof (decode_effects id data w) as Hs.
  destruct (decode id data w) as [[res|] wd|wd|] eqn:Hdec; [| |done..].
  - destruct (applySummary_entry id res wd) as (w1' & u & Happ & Hu & Hmsg & _).
    rewrite Happ in Hon. injection Hon as ->.
    pose proof (decode_independent_of_world id data w) as Hw.
    pose proof (decode_independent_of_world id data w1) as Hw1.
    rewrite Hdec in Hw.
    destruct (decode id data newState) as [[res0|] w0|w0|]; cbn in Hw; try done.
    injection Hw as -> _. cbn in Hw1.
    pose proof (decode_effects id data w1) as Hs1. rewrite Hw1 in Hs1.
    destruct Hs1 as ((_ & Hupd & Hlog & _) & _).
    eexists. split_and!; [|exact Hupd|exact Hlog].
    unfold onDiscovery. rewrite (M_bind_Returns _ _ _ _ _ Hw1).
    eapply applySummary_same; [exact Hu | done].
  - injection Hon as <-. destruct Hs as [-> Hf].
    exists w. split; [by apply onDiscovery_foreign | done].
Qed.

Lemma same_advertisement_again_witness :
  ∃ w2, onDiscovery "dev" header50 7
          (World {["dev" := Update "batt:50%" true]}
             [GaugeSet battery "dev" (inject_Z 50); LogNew "dev" "batt:50%"]) =
        Returns tt w2 ∧
        updates w2 = {["dev" := Update "batt:50%" true]} ∧
        filter (λ e, is_log e = true) (trace w2) =
          filter (λ e, is_log e = true)
            [GaugeSet battery "dev" (inject_Z 50); LogNew "dev" "batt:50%"].
Proof.
  assert (onDiscovery "dev" header50 0 newState =
          Returns tt (World {["dev" := Update "batt:50%" true]}
                        [GaugeSet battery "dev" (inject_Z 50);
                         LogNew "dev" "batt:50%"])) as H
    by (vm_compute; reflexivity).
  exact (same_advertisement_again "dev" header50 0 7 newState _ H).
Defined.

(** ** A tick *)

(** The ticker case always returns.  It writes one line
    [<deviceID>: <message>] for each entry that is marked changed and none
    for the others, clears every flag, and keeps every key and message. *)
Theorem tick_reports_changed w :
  ∃ w', drainChanged w = Returns tt w' ∧
    (∀ id, updates w' !! id = cleared <$> updates w !! id) ∧
    trace w' = trace w ++ drained (map_to_list (updates w)) ∧
    Forall (λ e, ∃ id msg, e = LogUpdate id msg) (drained (map_to_list (updates w))) ∧
    ∀ id, filter (λ e, subject e = Some id) (drained (map_to_list (updates w))) =
          match updates w !! id with
          | Some u => if changed u then [LogUpdate id (message u)] else []
          | None => []
          end.
Proof.
  eexists. split; [apply drainChanged_spec|]. cbn [updates trace].
  split_and!.
  - intros id. apply lookup_fmap.
  - done.
  - unfold drained. apply Forall_fmap, Forall_forall. intros [k u] _. by exists k, (message u).
  - intros id. destruct (updates w !! id) as [u|] eqn:Hid.
    + apply drained_present; [apply NoDup_fst_map_to_list | by apply elem_of_map_to_list].
    + apply drained_absent. intros ([k u] & -> & Hin%elem_of_map_to_list)%list_elem_of_fmap.
      cbn in Hid. congruence.
Qed.

(** ** Sequences of events *)

Lemma serve_app evs1 evs2 w :
  serve (evs1 ++ evs2) w =
  match serve evs1 w with
  | Returns false w' => serve evs2 w'
  | r => r
  end.
Proof.
  revert w. induction evs1 as [|[id data rssi| |] evs1 IH]; intros w; [done|..].
  - cbn [app serve]. unfold mbind, M_bind.
    destruct (onDiscovery id data rssi w); [apply IH|done..].
  - cbn [app serve]. unfold mbind, M_bind.
    destruct (drainChanged w); [apply IH|done..].
  - done.
Qed.

(** [serve] handles its events one after the other: what it does on a
    sequence followed by another is what it does on the second from the
    world the first left, unless the first made it return (a signal) or
    panic, and then the second is never looked at. *)
Theorem serve_in_sequence evs1 evs2 w :
  serve (evs1 ++ evs2) w =
  match serve evs1 w with
  | Returns false w' => serve evs2 w'
  | r => r
  end.
Proof.
  revert w. induction evs1 as [|e evs1 IH]; intros w; [done|].
  destruct e as [id data rssi| |]; cbn [app serve]; [| |done].
    unfold mbind, M_bind.
    destruct (onDiscovery id data rssi w) as [[] w1|w1|]; [apply IH|done..].
  - unfold mbind, M_bind.
    destruct (drainChanged w) as [[] w1|w1|]; [apply IH|done..].
Qed.

Lemma serve_returns evs w b w' :
  serve evs w = Returns b w' →
  b = existsb is_sig evs ∧
  (b = true → ∃ t, trace w' = t ++ [LogExit]).
Proof.
  revert w. induction evs as [|[id data rssi| |] evs IH]; intros w.
  - by intros [= <- <-].
  - cbn [serve existsb is_sig orb]. unfold mbind, M_bind.
    destruct (onDiscovery id data rssi w) as [[] w1|w1|]; [|done..]. apply IH.
  - cbn [serve existsb is_sig orb]. unfold mbind, M_bind.
    destruct (drainChanged w) as [[] w1|w1|]; [|done..]. apply IH.
  - intros [= <- <-]. split; [done|]. intros _. by eexists.
Qed.

(** A signal ends [serve]: the events after it have no influence at all.
    When [serve] returns, it returned on a signal exactly when there was
    one among the events, and then [Exit on interrupt] is the last thing
    it did. *)
Theorem serve_ends_at_signal evs rest w :
  serve (evs ++ Sig :: rest) w = serve (evs ++ [Sig]) w ∧
  (∀ b w', serve (evs ++ Sig :: rest) w = Returns b w' →
           b = true ∧ ∃ t, trace w' = t ++ [LogExit]) ∧
  (∀ b w', serve evs w = Returns b w' → b = existsb is_sig evs).
Proof.
  assert (serve (evs ++ Sig :: rest) w = serve (evs ++ [Sig]) w) as Heq.
  { rewrite !serve_app. by destruct (serve evs w) as [[] ?|?|]. }
  split_and!; [done| |].
  - rewrite Heq. intros b w' Hs.
    destruct (serve_returns _ _ _ _ Hs) as [-> Ht].
    assert (existsb is_sig (evs ++ [Sig]) = true) as Hb.
    { rewrite existsb_app. cbn. by rewrite orb_true_r. }
    rewrite Hb in *. by split; [|apply Ht].
  - intros b w' Hs. by destruct (serve_returns _ _ _ _ Hs).
Qed.

Lemma serve_ends_at_signal_witness :
  true = true ∧
  ∃ t, trace (World ∅ [LogExit]) = t ++ [LogExit].
Proof.
  assert (serve ([Tick] ++ Sig :: [Tick; Tick]) newState =
          Returns true (World ∅ [LogExit])) as H by (vm_compute; reflexivity).
  exact (proj1 (proj2 (serve_ends_at_signal [Tick] [Tick; Tick] newState)) _ _ H).
Defined.

(** ** Invariants of a run of [serve] *)

Lemma new_ids_app t1 t2 : new_ids (t1 ++ t2) = new_ids t1 ++ new_ids t2.
Proof.
  apply omap_app.
Qed.

Lemma new_ids_logs t : new_ids (filter (λ e, is_log e = true) t) = new_ids t.
Proof.
  unfold new_ids. induction t as [|e t IH]; [done|].
  destruct e;
    [rewrite filter_cons_True by done..
    |rewrite filter_cons_False by (cbn; congruence)];
    cbn; by rewrite IH.
Qed.

Lemma new_ids_drained l : new_ids (drained l) = [].
Proof.
  unfold drained. induction (filter _ l) as [|kv l' IH]; [done|]. by cbn.
Qed.

(** What one advertisement can do to the store and to the announcements,
    whether [onDiscovery] returns or panics. *)
Lemma onDiscovery_outcomes id data rssi w w' :
  final (onDiscovery id data rssi w) = Some w' →
  (updates w' = updates w ∧ new_ids (trace w') = new_ids (trace w)) ∨
  ∃ res b, extends (summary0 b) res ∧
    updates w' = <[id := Update res true]> (updates w) ∧
    new_ids (trace w') =
      new_ids (trace w) ++ match updates w !! id with Some _ => [] | None => [id] end.
Proof.
  unfold onDiscovery, mbind, M_bind.
  pose proof (decode_effects id data w) as Hs.
  destruct (decode id data w) as [[res|] wd|wd|]; [| | |done].
  - destruct Hs as ((_ & Hupd & Hlog & _) & b & _ & Hext).
    assert (new_ids (trace wd) = new_ids (trace w)) as Hids
      by (by rewrite <- new_ids_logs, Hlog, new_ids_logs).
    destruct (updates wd !! id) as [u|] eqn:Hid.
    + destruct (decide (message u = res)) as [Heq|Hne].
      * rewrite (applySummary_same _ _ _ _ Hid Heq). intros [= <-]. by left.
      * rewrite (applySummary_differs _ _ _ _ Hid Hne). intros [= <-]. right.
        exists res, b. rewrite <- Hupd, Hid. cbn. by rewrite app_nil_r.
    + rewrite applySummary_new;
        [|done|by eapply extends_nonempty; [apply summary0_nonempty|]].
      intros [= <-]. right. exists res, b. rewrite <- Hupd, Hid. cbn.
      by rewrite new_ids_app, Hids.
  - destruct Hs as [-> _]. intros [= <-]. by left.
  - destruct Hs as (_ & Hupd & Hlog & _). intros [= <-]. left. split; [done|].
    by rewrite <- new_ids_logs, Hlog, new_ids_logs.
Qed.

Lemma serve_invariant (I : world → Prop) :
  (∀ id data rssi w w', I w → final (onDiscovery id data rssi w) = Some w' → I w') →
  (∀ w w', I w → final (drainChanged w) = Some w' → I w') →
  (∀ w, I w → I (World (updates w) (trace w ++ [LogExit]))) →
  ∀ evs w w', I w → final (serve evs w) = Some w' → I w'.
Proof.
  intros Hdisc Htick Hsig evs.
  induction evs as [|[id data rssi| |] evs IH]; intros w w' HI; cbn [serve].
  - by intros [= <-].
  - unfold mbind, M_bind. specialize (Hdisc id data rssi w).
    destruct (onDiscovery id data rssi w) as [[] w1|w1|]; cbn [final] in *.
    + apply IH. by apply Hdisc.
    + intros [= <-]. by apply Hdisc.
    + done.
  - unfold mbind, M_bind. specialize (Htick w).
    destruct (drainChanged w) as [[] w1|w1|]; cbn [final] in *.
    + apply IH. by apply Htick.
    + intros [= <-]. by apply Htick.
    + done.
  - intros [= <-]. by apply Hsig.
Qed.

(** In the world a run of [serve] ends in, by a return or by a panic,
    every stored message starts with the battery field ["batt:<n>%"] of
    some byte, provided that held at the start (the store of [newState]
    is empty).  No entry is ever removed: a device that had an entry
    still has one. *)
Theorem store_invariant evs w w' :
  battery_first (updates w) →
  final (serve evs w) = Some w' →
  battery_first (updates w') ∧
  ∀ id, is_Some (updates w !! id) → is_Some (updates w' !! id).
Proof.
  intros Hbf Hfin.
  apply (serve_invariant
    (λ w', battery_first (updates w') ∧
           ∀ id, is_Some (updates w !! id) → is_Some (updates w' !! id)))
    with (evs := evs) (w := w); [| | |done|done].
  - intros id data rssi w1 w2 [Hb Hk] [[Hupd _]|(res & b & Hext & Hupd & _)]%onDiscovery_outcomes.
    + by rewrite Hupd.
    + rewrite Hupd. split.
      * intros id' u. destruct (decide (id' = id)) as [->|Hne].
        -- rewrite lookup_insert_eq. intros [= <-]. by exists b.
        -- rewrite lookup_insert_ne by done. apply Hb.
      * intros id' Hs. destruct (decide (id' = id)) as [->|Hne].
        -- by rewrite lookup_insert_eq.
        -- rewrite lookup_insert_ne by done. by apply Hk.
  - intros w1 w2 [Hb Hk]. rewrite drainChanged_spec. intros [= <-]. cbn [updates].
    split.
    + intros id u. rewrite lookup_fmap.
      destruct (updates w1 !! id) as [u1|] eqn:Hid; [|done].
      intros [= <-]. cbn [cleared message]. by apply (Hb id u1).
    + intros id Hs. rewrite lookup_fmap. by apply fmap_is_Some, Hk.
  - done.
Qed.

Lemma store_invariant_witness :
  battery_first {["dev" := Update "batt:50%" false]} ∧
  ∀ id, is_Some (updates newState !! id) →
        is_Some (({["dev" := Update "batt:50%" false]} : gmap string update) !! id).
Proof.
  assert (battery_first (updates newState)) as Hbf.
  { intros id u. cbn. by rewrite lookup_empty. }
  assert (final (serve [Disco "dev" header50 0; Tick] newState) =
          Some (World {["dev" := Update "batt:50%" false]}
                  [GaugeSet battery "dev" (inject_Z 50);
                   LogNew "dev" "batt:50%"; LogUpdate "dev" "batt:50%"])) as Hfin
    by (vm_compute; reflexivity).
  exact (store_invariant _ _ _ Hbf Hfin).
Defined.

(** Each device is announced by a [new:] line exactly once, when its
    entry is created: if the devices announced so far are those of the
    store, each once, this is still so in the world a run of [serve] ends
    in, by a return or by a panic. *)
Theorem announced_once evs w w' :
  announced w →
  final (serve evs w) = Some w' →
  announced w'.
Proof.
  apply serve_invariant.
  - intros id data rssi w1 w2 [Hnd Hin]
      [[Hupd Hids]|(res & b & Hext & Hupd & Hids)]%onDiscovery_outcomes;
      unfold announced; rewrite Hids, Hupd; [done|].
    destruct (updates w1 !! id) as [u|] eqn:Hid.
    + rewrite app_nil_r. split; [done|]. intros id'.
      destruct (decide (id' = id)) as [->|Hne].
      * rewrite lookup_insert_eq, Hin, Hid. split; eauto.
      * by rewrite lookup_insert_ne.
    + assert (id ∉ new_ids (trace w1)) as Hfresh.
      { rewrite Hin, Hid. by intros [? ?]. }
      split.
      * apply NoDup_app. split_and!; [done| |apply NoDup_singleton].
        intros id' Hid' ->%list_elem_of_singleton. done.
      * intros id'. rewrite elem_of_app, list_elem_of_singleton.
        destruct (decide (id' = id)) as [->|Hne].
        -- rewrite lookup_insert_eq. split; eauto.
        -- rewrite lookup_insert_ne by done. rewrite Hin.
           split; [by intros [?|?] | by left].
  - intros w1 w2 [Hnd Hin]. rewrite drainChanged_spec. intros [= <-].
    unfold announced. cbn [updates trace].
    rewrite new_ids_app, new_ids_drained, app_nil_r. split; [done|].
    intros id. by rewrite lookup_fmap, fmap_is_Some.
  - intros w1 [Hnd Hin]. unfold announced. cbn [updates trace].
    by rewrite new_ids_app, app_nil_r.
Qed.

Lemma announced_once_witness :
  announced (World {["dev" := Update "batt:50%" false]}
               [GaugeSet battery "dev" (inject_Z 50);
                LogNew "dev" "batt:50%"; LogUpdate "dev" "batt:50%"]).
Proof.
  assert (announced newState) as Ha.
  { split; [constructor|]. intros id. cbn. rewrite lookup_empty.
    split; [by intros ?%elem_of_nil | by intros [? ?]]. }
  assert (final (serve [Disco "dev" header50 0; Tick] newState) =
          Some (World {["dev" := Update "batt:50%" false]}
                  [GaugeSet battery "dev" (inject_Z 50);
                   LogNew "dev" "batt:50%"; LogUpdate "dev" "batt:50%"])) as Hfin
    by (vm_compute; reflexivity).
  exact (announced_once _ _ _ Ha Hfin).
Defined.

(** ** How a decode ends *)

Lemma records_outcomes fuel id rest str w :
  (length rest ≤ fuel)%nat →
  match records fuel id rest str w with
  | Returns res w' => reaches id rest str w [] res w'
  | Panics w' => ∃ tl s, reaches id rest str w tl s w' ∧ truncated tl
  | OutOfFuel => False
  end.
Proof.
  revert rest str w.
  induction fuel as [|fuel IH]; intros [|c tl] str w Hlen; cbn [length] in Hlen;
    try lia; try apply reaches_here.
  rewrite records_cons. unfold mbind, M_bind.
  pose proof (record_spec id c tl str w) as Hr.
  destruct (record id (c :: tl) str w) as [[rest' str'] w1|w1|] eqn:Hrec; [| |done].
  - destruct Hr as (Hsuf%suffix_length & _).
    specialize (IH rest' str' w1 ltac:(lia)).
    destruct (records fuel id rest' str' w1) as [res w2|w2|]; [| |done].
    + by eapply reaches_step.
    + destruct IH as (tl' & s & Hreach & Htr).
      exists tl', s. split; [by eapply reaches_step | done].
  - subst w1. exists (c :: tl), str. split; [apply reaches_here|].
    by apply (record_truncated id c tl str w).
Qed.

(** A decode that got past a valid header ends in one of two ways: the
    loop reaches the end of the payload, record by record, and the summary
    built by then is returned; or the loop reaches a truncated record and
    panics there.  There is no other failure. *)
Theorem decode_outcomes id b r rest w :
  match decode id (magic ++ b :: r :: rest) w with
  | Returns res w' =>
      ∃ s, res = Some s ∧
           reaches id rest (summary0 b) (battery_set id b w) [] s w'
  | Panics w' =>
      ∃ tl s, reaches id rest (summary0 b) (battery_set id b w) tl s w' ∧
              truncated tl
  | OutOfFuel => False
  end.
Proof.
  rewrite decode_header. unfold mbind, M_bind.
  pose proof (records_outcomes (length rest) id rest (summary0 b)
                (battery_set id b w) (le_n _)) as Hr.
  destruct (records _ _ _ _ _) as [res w'|w'|]; [|done..].
  by exists res.
Qed.

(** ** Records that carry a value, and records that carry none *)

Lemma int16_cases u :
  0 ≤ u < 65536 →
  -32768 ≤ int16 u ≤ 32767 ∧
  int16 u = if u <? 32768 then u else u - 65536.
Proof.
  intros Hu. unfold int16. destruct (Z.ltb_spec u 32768).
  - rewrite Z.mod_small by lia. lia.
  - replace (u + 32768) with (u - 32768 + 1 * 65536) by lia.
    rewrite Z.mod_add, Z.mod_small by lia. lia.
Qed.

(** A temperature record (data-type [0x03], has-data set) followed by at
    least two bytes: the two bytes are read as a little-endian 16-bit
    number in two's complement, [v]; the temperature [v / 16] is written to
    the summary with one decimal and set on the temperature gauge of the
    device; the record costs its control byte, its alert byte if any, and
    the two bytes. *)
Theorem temperature_record id c a lo hi tl str w :
  dataType (byte_val c) = 0x03 →
  hasData (byte_val c) = true →
  ∃ v,
    record id (c :: (if hasAlert (byte_val c) then [a] else []) ++ lo :: hi :: tl)
      str w =
      Returns (tl, str +:+ " temp:" +:+ fmt_f1 (0.0625 * inject_Z v)%Q +:+ "°C")
        (World (updates w)
           (trace w ++ [GaugeSet airTemp id (0.0625 * inject_Z v)%Q])) ∧
    -32768 ≤ v ≤ 32767 ∧
    v = (if byte_val hi <? 128
         then byte_val lo + 256 * byte_val hi
         else byte_val lo + 256 * byte_val hi - 65536) ∧
    (0.0625 * inject_Z v == v # 16)%Q.
Proof.
  intros Htype Hdata.
  pose proof (byte_val_range lo) as Hlo. pose proof (byte_val_range hi) as Hhi.
  destruct (int16_cases (byte_val lo + 256 * byte_val hi)) as [Hrange Hval]; [lia|].
  exists (int16 (byte_val lo + 256 * byte_val hi)). split_and!.
  - unfold record. M_simp. rewrite Hdata, Htype.
    destruct (hasAlert (byte_val c)); cbn [app]; M_simp;
      rewrite Uint16_value; by M_run.
  - lia.
  - lia.
  - rewrite Hval.
    destruct (Z.ltb_spec (byte_val hi) 128), (Z.ltb_spec (byte_val lo + 256 * byte_val hi) 32768);
      lia.
  - unfold Qeq. cbn. lia.
Qed.

Lemma temperature_record_witness :
  ∃ v, record "dev" [x43; xf0; xff; x7f] "batt:50%" newState =
         Returns ([x7f], "batt:50%" +:+ " temp:" +:+ fmt_f1 (0.0625 * inject_Z v)%Q +:+ "°C")
           (World ∅ [GaugeSet airTemp "dev" (0.0625 * inject_Z v)%Q]) ∧
       -32768 ≤ v ≤ 32767 ∧
       v = -16 ∧
       (0.0625 * inject_Z v == v # 16)%Q.
Proof.
  exact (temperature_record "dev" x43 x00 xf0 xff [x7f] "batt:50%" newState
           eq_refl eq_refl).
Defined.

(** Records that contribute nothing: a record with has-data clear costs
    its control byte and its alert byte if any; a motion record (data-type
    [0x01]) costs two bytes more and a pairing notice ([0x2f]) one byte
    more.  None of them changes the summary or has any effect, so a payload
    with such a record right after the header decodes as the payload
    without it. *)
Theorem silent_records id c a x y tl str w b r :
  (hasData (byte_val c) = false →
     record id (c :: (if hasAlert (byte_val c) then [a] else []) ++ tl) str w =
       Returns (tl, str) w ∧
     decode id (magic ++ b :: r :: c ::
                  (if hasAlert (byte_val c) then [a] else []) ++ tl) w =
       decode id (magic ++ b :: r :: tl) w) ∧
  (hasData (byte_val c) = true → dataType (byte_val c) = 0x01 →
     record id (c :: (if hasAlert (byte_val c) then [a] else []) ++ x :: y :: tl) str w =
       Returns (tl, str) w ∧
     decode id (magic ++ b :: r :: c ::
                  (if hasAlert (byte_val c) then [a] else []) ++ x :: y :: tl) w =
       decode id (magic ++ b :: r :: tl) w) ∧
  (hasData (byte_val c) = true → dataType (byte_val c) = 0x2f →
     record id (c :: (if hasAlert (byte_val c) then [a] else []) ++ x :: tl) str w =
       Returns (tl, str) w ∧
     decode id (magic ++ b :: r :: c ::
                  (if hasAlert (byte_val c) then [a] else []) ++ x :: tl) w =
       decode id (magic ++ b :: r :: tl) w).
Proof.
  assert (∀ body, (∀ str w, record id (c :: body) str w = Returns (tl, str) w) →
            decode id (magic ++ b :: r :: c :: body) w =
            decode id (magic ++ b :: r :: tl) w) as Hdec.
  { intros body Hrec.
    assert (∀ str w, records (length (c :: body)) id (c :: body) str w =
                     records (length tl) id tl str w) as Hloop.
    { intros str0 w0. cbn [length].
      rewrite records_cons, (M_bind_Returns _ _ _ _ _ (Hrec _ _)).
      apply records_fuel; [|done].
      pose proof (record_spec id c body "" w) as Hs. rewrite Hrec in Hs.
      destruct Hs as (Hsuf & _). by apply suffix_length. }
    rewrite !decode_header. unfold mbind, M_bind. by rewrite Hloop. }
  split_and!.
  - intros Hdata.
    assert (∀ str w,
      record id (c :: (if hasAlert (byte_val c) then [a] else []) ++ tl) str w =
      Returns (tl, str) w) as Hrec.
    { intros str0 w0. unfold record. M_simp. rewrite Hdata.
      destruct (hasAlert (byte_val c)); cbn [app]; by M_simp. }
    split; [apply Hrec | by apply Hdec].
  - intros Hdata Htype.
    assert (∀ str w,
      record id (c :: (if hasAlert (byte_val c) then [a] else []) ++ x :: y :: tl) str w =
      Returns (tl, str) w) as Hrec.
    { intros str0 w0. unfold record. M_simp. rewrite Hdata, Htype.
      destruct (hasAlert (byte_val c)); cbn [app]; by M_simp. }
    split; [apply Hrec | by apply Hdec].
  - intros Hdata Htype.
    assert (∀ str w,
      record id (c :: (if hasAlert (byte_val c) then [a] else []) ++ x :: tl) str w =
      Returns (tl, str) w) as Hrec.
    { intros str0 w0. unfold record. M_simp. rewrite Hdata, Htype.
      destruct (hasAlert (byte_val c)); cbn [app]; by M_simp. }
    split; [apply Hrec | by apply Hdec].
Qed.

Lemma silent_records_witness :
  record "dev" [xc1; x09; x01; x02; x43] "batt:50%" newState =
    Returns ([x43], "batt:50%") newState ∧
  decode "dev" (magic ++ x32 :: x00 :: [xc1; x09; x01; x02; x43]) newState =
    decode "dev" (magic ++ x32 :: x00 :: [x43]) newState.
Proof.
  exact (proj1 (proj2 (silent_records "dev" xc1 x09 x01 x02 [x43] "batt:50%"
                         newState x32 x00)) eq_refl eq_refl).
Defined.

(** The three fields of a control byte (lines 146-148) use every bit of it
    exactly once: the data-type is below 64 and the byte is the
    has-alert bit, the has-data bit and the data-type put together, so two
    control bytes with the same fields are the same byte. *)
Theorem control_byte_fields c :
  0 ≤ dataType (byte_val c) ≤ 63 ∧
  byte_val c =
    (if hasAlert (byte_val c) then 128 else 0) +
    (if hasData (byte_val c) then 64 else 0) + dataType (byte_val c) ∧
  ∀ c', hasAlert (byte_val c') = hasAlert (byte_val c) →
        hasData (byte_val c') = hasData (byte_val c) →
        dataType (byte_val c') = dataType (byte_val c) →
        c' = c.
Proof.
  assert (∀ c, 0 ≤ dataType (byte_val c) ≤ 63 ∧
               byte_val c =
                 (if hasAlert (byte_val c) then 128 else 0) +
                 (if hasData (byte_val c) then 64 else 0) + dataType (byte_val c))
    as Hfields by (intros c0; destruct c0; vm_compute; split_and!; congruence).
  destruct (Hfields c) as [Hr He]. split_and!; [lia|lia|done|].
  intros c' Ha Hd Ht. destruct (Hfields c') as [_ He'].
  rewrite Ha, Hd, Ht, <- He in He'.
  unfold byte_val in He'. apply N2Z.inj in He'.
  pose proof (Byte.of_to_N c) as Hc. pose proof (Byte.of_to_N c') as Hc'.
  rewrite He' in Hc'. congruence.
Qed.

Lemma control_byte_fields_witness :
  0 ≤ dataType (byte_val x43) ≤ 63 ∧ x43 = x43.
Proof.
  destruct (control_byte_fields x43) as (Hrange & _ & Hinj).
  split; [exact Hrange|].
  exact (Hinj x43 eq_refl eq_refl eq_refl).
Defined.

Lemma applySummary_entry_witness :
  ∃ w' u,
    applySummary "dev" "batt:49%" (World {["dev" := Update "batt:50%" false]} []) =
      Returns tt w' ∧
    updates w' !! "dev" = Some u ∧ message u = "batt:49%" ∧ changed u = true ∧
    updates w' !! "other" = None.
Proof.
  destruct (applySummary_entry "dev" "batt:49%"
              (World {["dev" := Update "batt:50%" false]} []))
    as (w' & u & Hret & Hu & Hmsg & Hch & Hother & _).
  exists w', u. split_and!; [done|done|done|exact Hch|].
  rewrite (Hother "other"); [reflexivity | discriminate].
Defined.
